(** * LiquidityService (src/services/liquidity.js)

    A shallow embedding of the add-liquidity service: the approval helper
    [approveToken], the confirmation loop [waitForTransaction] and the
    public operation [addLiquidity], together with the properties of the
    written specification that concern them.

    JavaScript strings are [string]s of ASCII code units, bigints are [Z],
    and every awaited call on the provider, the token contract or the wallet
    is a transition of an abstract chain world that either returns a value or
    throws an error object. *)

From Stdlib Require Import ZArith List String Ascii Bool Lia DecimalString.
Import ListNotations.
Open Scope string_scope.
Open Scope Z_scope.

Set Implicit Arguments.

(** ** JavaScript string primitives *)

Module Js.

(** [String.prototype.toUpperCase] on ASCII text: the letters a-z move to
    A-Z, every other code unit stays. *)
Definition upper_char (c : ascii) : ascii :=
  let n := nat_of_ascii c in
  if ((97 <=? n) && (n <=? 122))%nat then ascii_of_nat (n - 32) else c.

Fixpoint toUpperCase (s : string) : string :=
  match s with
  | EmptyString => EmptyString
  | String c r => String (upper_char c) (toUpperCase r)
  end.

(** [s.includes(needle)] *)
Fixpoint includes (needle s : string) : bool :=
  prefix needle s ||
  match s with
  | EmptyString => false
  | String _ r => includes needle r
  end.

(** Membership of a code unit in a string. *)
Fixpoint has_char (c : ascii) (s : string) : bool :=
  match s with
  | EmptyString => false
  | String d r => Ascii.eqb c d || has_char c r
  end.

(** [<] on two strings: code-unit-wise lexicographic order. *)
Definition lt (a b : string) : bool := String.ltb a b.

(** [n.toString()] for a count and for a bigint. *)
Definition nat_toString (n : nat) : string :=
  NilZero.string_of_uint (Nat.to_uint n).

Definition bigint_toString (z : Z) : string :=
  NilZero.string_of_int (Z.to_int z).

(** Hexadecimal digits and 0x-prefixed hexadecimal text, the shape of
    transaction hashes and addresses. *)
Definition is_hex_digit (c : ascii) : bool :=
  let n := nat_of_ascii c in
  (((48 <=? n) && (n <=? 57)) || ((97 <=? n) && (n <=? 102))
   || ((65 <=? n) && (n <=? 70)))%nat.

Fixpoint all_hex (s : string) : bool :=
  match s with
  | EmptyString => true
  | String c r => is_hex_digit c && all_hex r
  end.

Definition is_hex_text (s : string) : bool :=
  match s with
  | String "0" (String "x" r) => all_hex r
  | _ => false
  end.

End Js.

(** ** ethers: [parseEther] and [MaxUint256] *)

Module Ethers.

Definition MaxUint256 : Z := 2 ^ 256 - 1.

Definition is_digit (c : ascii) : bool :=
  let n := nat_of_ascii c in ((48 <=? n) && (n <=? 57))%nat.

Definition digit_val (c : ascii) : Z := Z.of_nat (nat_of_ascii c) - 48.

(** The longest prefix of decimal digits and what follows it: one digit
    group of the accepted shape (optional minus, digits, optional point,
    digits, end of text). *)
Fixpoint span_digits (s : string) : string * string :=
  match s with
  | EmptyString => (EmptyString, EmptyString)
  | String c r =>
      if is_digit c
      then let (d, rest) := span_digits r in (String c d, rest)
      else (EmptyString, s)
  end.

Fixpoint all_digits (s : string) : bool :=
  match s with
  | EmptyString => true
  | String c r => is_digit c && all_digits r
  end.

Fixpoint all_zero (s : string) : bool :=
  match s with
  | EmptyString => true
  | String c r => Ascii.eqb c "0" && all_zero r
  end.

Fixpoint zeros (n : nat) : string :=
  match n with
  | O => EmptyString
  | S k => String "0" (zeros k)
  end.

(** [BigInt(digits)] read left to right. *)
Fixpoint digits_acc (acc : Z) (s : string) : Z :=
  match s with
  | EmptyString => acc
  | String c r => digits_acc (acc * 10 + digit_val c) r
  end.

Definition digits_val (s : string) : Z := digits_acc 0 s.

Fixpoint take (n : nat) (s : string) : string :=
  match n, s with
  | S k, String c r => String c (take k r)
  | _, _ => EmptyString
  end.

Fixpoint drop (n : nat) (s : string) : string :=
  match n, s with
  | S k, String _ r => drop k r
  | _, _ => s
  end.

(** [parseUnits(value, decimals)] through [FixedNumber.fromString] with a
    signed 512-bit format: sign, whole part, optional point, fraction; at
    least one digit; the fraction is padded with zeros to [decimals]
    places, places beyond them must be zero; the result must fit the
    format.  [None] stands for the thrown error. *)
Definition strip_sign (s : string) : bool * string :=
  match s with
  | String "-" r => (true, r)
  | _ => (false, s)
  end.

Definition strip_point (s : string) : string :=
  match s with
  | String "." r => r
  | _ => s
  end.

Definition parseUnits (value : string) (decimals : nat) : option Z :=
  let (neg, body) := strip_sign value in
  let (whole, after_whole) := span_digits body in
  let (frac, rest) := span_digits (strip_point after_whole) in
  match rest with
  | String _ _ => None
  | EmptyString =>
      if (String.length whole + String.length frac =? 0)%nat then None
      else
        let padded := frac ++ zeros (decimals - String.length frac) in
        if negb (all_zero (drop decimals padded)) then None
        else
          let magnitude := digits_val (whole ++ take decimals padded) in
          let v := if neg then - magnitude else magnitude in
          if (- 2 ^ 511 <=? v) && (v <? 2 ^ 511) then Some v else None
  end.

Definition parseEther (value : string) : option Z := parseUnits value 18.

End Ethers.

(** ** Static chain configuration ([contract] of ../chains) *)

Definition address := string.

Record Contracts : Type := mkContracts {
  WPHRS : address;
  USDT : address;
  USDC : address;
  ROUTER : address
}.

(** ** Token resolution and canonical ordering (addLiquidity, lines 69-86) *)

Section Resolution.

Variable contract : Contracts.

(** [tokenMap[key]]: the three own properties of the literal; any other
    key is [undefined]. Every inherited property name of a plain object
    contains a lower-case letter, so no upper-cased key reaches one. *)
Definition tokenMap (key : string) : option address :=
  if String.eqb key "PHRS" then Some (WPHRS contract)
  else if String.eqb key "USDT" then Some (USDT contract)
  else if String.eqb key "USDC" then Some (USDC contract)
  else None.

(** [!x] for a looked-up address: [undefined] and the empty string are
    falsy. *)
Definition falsy (x : option address) : bool :=
  match x with
  | None => true
  | Some a => String.eqb a ""
  end.

(** [tokenMap[token.toUpperCase()]] followed by the guard of line 77:
    the address a symbol resolves to, if it resolves. *)
Definition resolve (token : string) : option address :=
  match tokenMap (Js.toUpperCase token) with
  | Some a => if String.eqb a "" then None else Some a
  | None => None
  end.

(** Lines 83-84. *)
Definition token0_of (tokenAAddress tokenBAddress : address) : address :=
  if Js.lt tokenAAddress tokenBAddress then tokenAAddress else tokenBAddress.

Definition token1_of (tokenAAddress tokenBAddress : address) : address :=
  if Js.lt tokenAAddress tokenBAddress then tokenBAddress else tokenAAddress.

(** The test of lines 85-86: whether tokenA took the first slot. *)
Definition a_is_token0 (a b : address) : bool := String.eqb a (token0_of a b).

(** The values bound by lines 75-86 when no guard fires and nothing
    throws. *)
Record Plan : Type := mkPlan {
  tokenAAddress : address;
  tokenBAddress : address;
  token0 : address;
  token1 : address;
  amount0Desired : Z;
  amount1Desired : Z
}.

(** Outcome of lines 75-86: the invalid-pair guard, a throwing
    [parseEther], or the bound values. *)
Inductive Prepared : Type :=
| InvalidPair
| ParseThrows
| Ready (p : Plan).

Definition prepare (tokenA tokenB amountA amountB : string) : Prepared :=
  let a := tokenMap (Js.toUpperCase tokenA) in
  let b := tokenMap (Js.toUpperCase tokenB) in
  if falsy a || falsy b then InvalidPair
  else
    match a, b with
    | Some ta, Some tb =>
        let t0 := token0_of ta tb in
        let t1 := token1_of ta tb in
        match (if String.eqb ta t0
               then Ethers.parseEther amountA
               else Ethers.parseEther amountB) with
        | None => ParseThrows
        | Some a0 =>
            match (if String.eqb ta t0
                   then Ethers.parseEther amountB
                   else Ethers.parseEther amountA) with
            | None => ParseThrows
            | Some a1 => Ready (mkPlan ta tb t0 t1 a0 a1)
            end
        end
    | _, _ => InvalidPair
    end.

End Resolution.

(** A configuration table used for the closed examples. The theorems that
    are stated for every [Contracts] do not depend on it. *)
Definition pharos : Contracts := {|
  WPHRS := "0x76aaada469d23216be5f7c596fa25f282ff9b364";
  USDT := "0xed59de2d7ad9c043442e381231ee3646fc3c2939";
  USDC := "0xad902cf99c2de2f1ba5ec4d642fd7e49cae9ee37";
  ROUTER := "0x1a4de519154ae51200b0ad7c90f7fac75547888a"
|}.

(** ** Values exchanged with the chain *)

(** [error.code]: absent, a number (JSON-RPC codes) or a string (the
    library's own codes). *)
Inductive ErrCode : Type :=
| NoCode
| NumCode (n : Z)
| StrCode (s : string).

(** A thrown [Error] object: the two properties the service reads. What
    the provider, the contract wrappers and the wallet throw are [Error]
    objects, so [message] is always a text. *)
Record JsError : Type := mkError {
  code : ErrCode;
  message : string
}.

(** [new Error(msg)] *)
Definition newError (msg : string) : JsError := mkError NoCode msg.

Inductive Outcome (A : Type) : Type :=
| Ok (a : A)
| Throw (e : JsError).

Arguments Ok {A} a.
Arguments Throw {A} e.

(** A transaction receipt; [status] is 1 for success, 0 for a revert and
    absent on chains that do not report it. *)
Record Receipt : Type := mkReceipt {
  transactionHash : string;
  status : option Z
}.

Module Mint.
(** The [params] object of lines 97-109. *)
Record Params : Type := mkParams {
  token0 : address;
  token1 : address;
  fee : Z;
  tickLower : Z;
  tickUpper : Z;
  amount0Desired : string;
  amount1Desired : string;
  amount0Min : string;
  amount1Min : string;
  recipient : address;
  deadline : Z
}.
End Mint.

(** The router functions the service encodes; call data is hex text. *)
Inductive RouterCall : Type :=
| CallMint (params : Mint.Params)
| CallRefundETH
| CallMulticall (data : list string).

(** [txParams] of lines 117-122. *)
Record TxRequest : Type := mkTx {
  to : address;
  data : string;
  value : Z;
  gasLimit : Z
}.

Definition set_gasLimit (tx : TxRequest) (g : Z) : TxRequest :=
  mkTx (to tx) (data tx) (value tx) g.

(** What a run does that is visible from outside: logger lines, calls made
    on the chain with what they answered, and timer waits. *)
Inductive Event : Type :=
| Log (line : string)
| Allowance (token owner spender : address) (r : Outcome Z)
| Approve (token spender : address) (amount : Z) (r : Outcome string)
| Poll (txHash : string) (confirmations timeout : Z)
       (r : Outcome (option Receipt))
| Sleep (ms : Z)
| EstimateGas (tx : TxRequest) (r : Outcome Z)
| Send (tx : TxRequest) (r : Outcome string).

(** The chain as the service reaches it: the ERC20 contract
    ([allowance], [approve]), the provider ([waitForTransaction],
    [estimateGas]), the wallet ([sendTransaction]), the passing of time
    ([setTimeout]) and the clock ([Date.now]).  A call answers with a value
    or a thrown error and moves the world on. *)
Record Gateway (World : Type) : Type := mkGateway {
  gw_allowance : address -> address -> address -> World -> Outcome Z * World;
  gw_approve : address -> address -> Z -> World -> Outcome string * World;
  gw_waitForTransaction :
    string -> Z -> Z -> World -> Outcome (option Receipt) * World;
  gw_sleep : Z -> World -> World;
  gw_estimateGas : TxRequest -> World -> Outcome Z * World;
  gw_sendTransaction : TxRequest -> World -> Outcome string * World;
  gw_now : World -> Z
}.

(** ** The monad of the service: world passing, thrown errors, events *)

Record Run (World A : Type) : Type := mkRun {
  outcome : Outcome A;
  world : World;
  events : list Event
}.

Definition M (World A : Type) : Type := World -> Run World A.

Section Monad.

Context {World : Type}.

Definition ret {A} (a : A) : M World A :=
  fun w => mkRun (Ok a) w [].

Definition throw {A} (e : JsError) : M World A :=
  fun w => mkRun (Throw e) w [].

Definition bind {A B} (m : M World A) (k : A -> M World B) : M World B :=
  fun w =>
    let r := m w in
    match outcome r with
    | Ok a =>
        let r' := k a (world r) in
        mkRun (outcome r') (world r') (events r ++ events r')
    | Throw e => mkRun (Throw e) (world r) (events r)
    end.

(** [try { m } catch (error) { handler }] *)
Definition try_catch {A} (m : M World A) (handler : JsError -> M World A)
  : M World A :=
  fun w =>
    let r := m w in
    match outcome r with
    | Ok a => r
    | Throw e =>
        let r' := handler e (world r) in
        mkRun (outcome r') (world r') (events r ++ events r')
    end.

Definition emit (ev : Event) : M World unit :=
  fun w => mkRun (Ok tt) w [ev].

(** A call on the chain: its answer is both the outcome and part of the
    recorded event. *)
Definition call {A} (step : World -> Outcome A * World)
           (ev : Outcome A -> Event) : M World A :=
  fun w => let (r, w') := step w in mkRun r w' [ev r].

(** The result of a pure library call that may throw. *)
Definition lift_outcome {A} (o : Outcome A) : M World A :=
  match o with
  | Ok a => ret a
  | Throw e => throw e
  end.

End Monad.

Declare Scope service_scope.
Delimit Scope service_scope with service.
Notation "x <- m ;; k" := (bind m (fun x => k))
  (at level 61, m at next level, right associativity) : service_scope.
Notation "m ;;; k" := (bind m (fun _ => k))
  (at level 61, right associativity) : service_scope.

(** ** The service *)

Section Service.

Variable World : Type.
Variable gw : Gateway World.

(** [contract], [this.wallet.address], [this.walletName] and
    [this.router.interface.encodeFunctionData] (the router ABI decides
    which values it refuses). *)
Variable contract : Contracts.
Variable walletAddress : address.
Variable walletName : string.
Variable encodeFunctionData : RouterCall -> Outcome string.

Local Open Scope service_scope.

(** [this.logger(`System | ${this.walletName} | ...`)] *)
Definition logger (text : string) : M World unit :=
  emit (Log ("System | " ++ walletName ++ " | " ++ text)).

(** Line 49: the errors that are retried. *)
Definition transient (error : JsError) : bool :=
  match code error with
  | NumCode n => (n =? -32008) || Js.includes "eth_getTransactionReceipt" (message error)
  | _ => Js.includes "eth_getTransactionReceipt" (message error)
  end.

(** Line 44: [receipt && receipt.status === 1]. *)
Definition succeeded (receipt : option Receipt) : bool :=
  match receipt with
  | Some rc => match status rc with Some 1 => true | _ => false end
  | None => false
  end.

(** What one turn of the loop of lines 41-61 decides. *)
Inductive Turn : Type :=
| Return (r : option Receipt)
| Continue.

(** Lines 41-61. [fuel] is the number of turns left,
    [retries - attempt + 1]: the loop condition [attempt <= retries]
    holds exactly while it is positive, and line 62 is reached when it is
    not. *)
Fixpoint waitLoop (fuel : nat) (txHash : string) (confirmations : Z)
         (retries : nat) (delay : Z) (attempt : nat)
  : M World (option Receipt) :=
  match fuel with
  | O => ret None
  | S fuel' =>
      turn <-
        try_catch
          (receipt <- call (gw_waitForTransaction gw txHash confirmations 60000)
                           (Poll txHash confirmations 60000) ;;
           if succeeded receipt then ret (Return receipt)
           else throw (newError ("Transaction " ++ txHash ++ " failed or reverted")))
          (fun error =>
             if transient error then
               logger ("Retry " ++ Js.nat_toString attempt ++ "/"
                       ++ Js.nat_toString retries ++ " for tx " ++ txHash
                       ++ ": " ++ message error) ;;;
               if (attempt =? retries)%nat then
                 logger ("Max retries reached for tx " ++ txHash) ;;;
                 ret (Return None)
               else
                 emit (Sleep delay) ;;;
                 (fun w => mkRun (Ok Continue) (gw_sleep gw delay w) [])
             else
               logger ("Transaction error: " ++ message error) ;;;
               ret (Return None)) ;;
      match turn with
      | Return r => ret r
      | Continue => waitLoop fuel' txHash confirmations retries delay (S attempt)
      end
  end.

(** [waitForTransaction(txHash, confirmations, retries = 5, delay = 5000)] *)
Definition waitForTransaction (txHash : string) (confirmations : Z)
           (retries : nat) (delay : Z) : M World (option Receipt) :=
  waitLoop retries txHash confirmations retries delay 1.

(** [approveToken(tokenAddress, spender, amount)], lines 19-37. *)
Definition approveToken (tokenAddress spender : address) (amount : Z)
  : M World bool :=
  try_catch
    (allowance <- call (gw_allowance gw tokenAddress walletAddress spender)
                       (Allowance tokenAddress walletAddress spender) ;;
     if allowance >=? amount then
       logger ("Token already approved for " ++ spender) ;;;
       ret true
     else
       logger ("Approving token " ++ tokenAddress ++ " for " ++ spender) ;;;
       tx <- call (gw_approve gw tokenAddress spender Ethers.MaxUint256)
                  (Approve tokenAddress spender Ethers.MaxUint256) ;;
       _ <- waitForTransaction tx 1 5 5000 ;;
       logger ("Approval successful for " ++ tokenAddress) ;;;
       ret true)
    (fun error =>
       logger ("Approval failed: " ++ message error) ;;;
       ret false).

(** Lines 97-109. *)
Definition mintParams (p : Plan) (now : Z) : Mint.Params :=
  {| Mint.token0 := token0 p;
     Mint.token1 := token1 p;
     Mint.fee := 500;
     Mint.tickLower := -887220;
     Mint.tickUpper := 887220;
     Mint.amount0Desired := Js.bigint_toString (amount0Desired p);
     Mint.amount1Desired := Js.bigint_toString (amount1Desired p);
     Mint.amount0Min := "0";
     Mint.amount1Min := "0";
     Mint.recipient := walletAddress;
     Mint.deadline := now / 1000 + 1800 |}.

(** Line 120. *)
Definition nativeValue (p : Plan) : Z :=
  if String.eqb (token0 p) (WPHRS contract) then amount0Desired p
  else if String.eqb (token1 p) (WPHRS contract) then amount1Desired p
  else 0.

(** The error of a throwing [parseEther]; the library's message carries
    more detail, and the service only logs it. *)
Definition parseError : JsError :=
  mkError (StrCode "INVALID_ARGUMENT") "invalid FixedNumber string value".

(** Lines 96-142 of addLiquidity, entered once both approvals returned
    true: build the call, estimate gas, send, confirm. What is thrown
    here reaches the catch block of line 143. *)
Definition submitLiquidity (p : Plan) (tokenA tokenB amountA amountB : string)
  : M World (option string) :=
  now <- (fun w => mkRun (Ok (gw_now gw w)) w []) ;;
  mintData <- lift_outcome
                (encodeFunctionData (CallMint (mintParams p now))) ;;
  refundData <- lift_outcome (encodeFunctionData CallRefundETH) ;;
  multicall <- lift_outcome
                 (encodeFunctionData
                    (CallMulticall [mintData; refundData])) ;;
  let txParams :=
    mkTx (ROUTER contract) multicall (nativeValue p) 500000 in
  estimatedGas <-
    try_catch
      (call (gw_estimateGas gw txParams) (EstimateGas txParams))
      (fun e =>
         logger ("Gas estimation failed: " ++ message e) ;;;
         ret 500000) ;;
  let txParams := set_gasLimit txParams (estimatedGas * 12 ÷ 10) in
  logger ("Sending liquidity transaction for " ++ amountA ++ " "
          ++ tokenA ++ " + " ++ amountB ++ " " ++ tokenB) ;;;
  tx <- call (gw_sendTransaction gw txParams) (Send txParams) ;;
  logger ("Transaction sent: " ++ tx) ;;;
  receipt <- waitForTransaction tx 1 5 5000 ;;
  match receipt with
  | Some _ =>
      logger ("Liquidity added successfully: " ++ tx) ;;;
      ret (Some tx)
  | None =>
      logger ("Failed to confirm liquidity transaction: " ++ tx) ;;;
      ret None
  end.

(** [addLiquidity(tokenA, tokenB, amountA, amountB)], lines 66-147. The
    result is the transaction hash or [None] for [null]. *)
Definition addLiquidity (tokenA tokenB amountA amountB : string)
  : M World (option string) :=
  try_catch
    (match prepare contract tokenA tokenB amountA amountB with
     | InvalidPair =>
         logger ("Invalid token pair: " ++ tokenA ++ "-" ++ tokenB) ;;;
         ret None
     | ParseThrows => throw parseError
     | Ready p =>
         approvedA <- approveToken (tokenAAddress p) (ROUTER contract)
                                   (amount0Desired p) ;;
         approvedB <- approveToken (tokenBAddress p) (ROUTER contract)
                                   (amount1Desired p) ;;
         if negb approvedA || negb approvedB then
           logger ("Token approval failed for " ++ tokenA ++ "-" ++ tokenB) ;;;
           ret None
         else
           submitLiquidity p tokenA tokenB amountA amountB
     end)
    (fun error =>
       logger ("Error adding liquidity: " ++ message error) ;;;
       ret None).

End Service.

(** ** Reading the events of a run *)

Definition is_poll (ev : Event) : bool :=
  match ev with Poll _ _ _ _ => true | _ => false end.

Definition is_sleep (ev : Event) : bool :=
  match ev with Sleep _ => true | _ => false end.

(** An approval that was broadcast: [approve] answered with a transaction. *)
Definition is_submitted_approval (ev : Event) : bool :=
  match ev with Approve _ _ _ (Ok _) => true | _ => false end.

Definition is_log (ev : Event) : bool :=
  match ev with Log _ => true | _ => false end.

(** A run without its logger lines: the calls on the chain, with their
    answers, and the timer waits. *)
Definition chain_events (evs : list Event) : list Event :=
  filter (fun ev => negb (is_log ev)) evs.

Definition polls (evs : list Event) : nat := List.length (filter is_poll evs).
Definition sleeps (evs : list Event) : nat := List.length (filter is_sleep evs).
Definition approvals (evs : list Event) : nat :=
  List.length (filter is_submitted_approval evs).

(** The answers of the receipt polls of a run, in order. *)
Fixpoint poll_answers (evs : list Event) : list (Outcome (option Receipt)) :=
  match evs with
  | [] => []
  | Poll _ _ _ r :: rest => r :: poll_answers rest
  | _ :: rest => poll_answers rest
  end.

(** How line 44 and line 49 sort the answer of one poll of [txHash]. *)
Inductive Verdict : Type :=
| Success (rc : Receipt)
| Transient
| Fatal.

Definition verdict (txHash : string) (r : Outcome (option Receipt)) : Verdict :=
  match r with
  | Ok receipt =>
      match receipt with
      | Some rc =>
          if succeeded receipt then Success rc
          else if transient (newError ("Transaction " ++ txHash ++ " failed or reverted"))
               then Transient else Fatal
      | None =>
          if transient (newError ("Transaction " ++ txHash ++ " failed or reverted"))
          then Transient else Fatal
      end
  | Throw e => if transient e then Transient else Fatal
  end.

(** The error the catch block of line 48 receives after a poll that did not
    produce a successful receipt. *)
Definition caught (txHash : string) (r : Outcome (option Receipt)) : JsError :=
  match r with
  | Throw e => e
  | Ok _ => newError ("Transaction " ++ txHash ++ " failed or reverted")
  end.

(** The life of one tracked transaction, read off the answers of its polls
    with a budget of attempts: every answer but the last is a retried
    error; the last one is a successful receipt (Confirmed), an error that
    is not retried (Fatal), or a retried error on the last attempt of the
    budget (Exhausted). With no budget there is no poll. *)
Inductive Tracked (txHash : string)
  : nat -> list (Outcome (option Receipt)) -> option Receipt -> Prop :=
| Tracked_idle : Tracked txHash 0 [] None
| Tracked_confirmed budget r rc :
    verdict txHash r = Success rc ->
    Tracked txHash (S budget) [r] (Some rc)
| Tracked_fatal budget r :
    verdict txHash r = Fatal ->
    Tracked txHash (S budget) [r] None
| Tracked_exhausted r :
    verdict txHash r = Transient ->
    Tracked txHash 1 [r] None
| Tracked_retry budget r rest res :
    verdict txHash r = Transient ->
    Tracked txHash (S budget) rest res ->
    Tracked txHash (S (S budget)) (r :: rest) res.

(** The events of the confirmation loop for one hash: polls of that hash
    with the fixed timeout, logger lines and waits. *)
Definition loop_event (h : string) (c : Z) (ev : Event) : Prop :=
  match ev with
  | Poll h' c' t _ => h' = h /\ c' = c /\ t = 60000
  | Log _ | Sleep _ => True
  | _ => False
  end.

(** The events of the approval phase and of the confirmation loop: neither
    a gas estimate nor a send. *)
Definition before_submission (ev : Event) : Prop :=
  match ev with
  | EstimateGas _ _ | Send _ _ => False
  | _ => True
  end.

(** The gas value line 128 multiplies: the estimate, or the fallback of
    line 126 when estimation threw. *)
Definition chosen_gas (r : Outcome Z) : Z :=
  match r with
  | Ok g => g
  | Throw _ => 500000
  end.

(** An event list in which every gas estimate is followed up: the request
    that was estimated is sent with the gas limit of line 128. *)
Definition buffered (evs : list Event) : Prop :=
  forall txp ans,
    In (EstimateGas txp ans) evs ->
    exists sent, In (Send (set_gasLimit txp (chosen_gas ans * 12 ÷ 10)) sent) evs.

(** ** An ERC20 chain on which approvals are in force when the next call is
    made *)

(** [allowance_of w token spender] is what the wallet has granted in world
    [w]. Reads answer with it or throw, and change nothing; an approval that
    was broadcast is in force afterwards; polling and waiting leave
    allowances alone. *)
Record ERC20Chain (World : Type) (gw : Gateway World) (owner : address)
  : Type := mkERC20Chain {
  allowance_of : World -> address -> address -> Z;
  read_answers : forall t s w v,
    fst (gw_allowance gw t owner s w) = Ok v -> v = allowance_of w t s;
  read_keeps : forall t s w t' s',
    allowance_of (snd (gw_allowance gw t owner s w)) t' s' = allowance_of w t' s';
  approve_sets : forall t s v w tx,
    fst (gw_approve gw t s v w) = Ok tx ->
    allowance_of (snd (gw_approve gw t s v w)) t s = v;
  poll_keeps : forall h c tm w t s,
    allowance_of (snd (gw_waitForTransaction gw h c tm w)) t s = allowance_of w t s;
  sleep_keeps : forall d w t s,
    allowance_of (gw_sleep gw d w) t s = allowance_of w t s
}.

(** ** A scripted chain for closed examples *)

Module Sim.

(** Allowances granted by the wallet, the answer of the next [approve]
    and [sendTransaction], the answers of the coming receipt polls (a
    successful receipt once the script is used up), the answer of
    [estimateGas] and the clock. *)
Record World : Type := mkWorld {
  allowances : address -> address -> Z;
  approve_answer : Outcome string;
  poll_script : list (Outcome (option Receipt));
  estimate_answer : Outcome Z;
  send_answer : Outcome string;
  clock : Z
}.

Definition grant (w : World) (t s : address) (v : Z) : World :=
  mkWorld
    (fun t' s' => if String.eqb t' t && String.eqb s' s then v
                  else allowances w t' s')
    (approve_answer w) (poll_script w) (estimate_answer w)
    (send_answer w) (clock w).

(** [mined] says whether a broadcast approval is in force at once or
    stays pending. *)
Definition gateway (mined : bool) : Gateway World :=
  {| gw_allowance := fun t _ s w => (Ok (allowances w t s), w);
     gw_approve := fun t s v w =>
       (approve_answer w,
        match approve_answer w with
        | Ok _ => if mined then grant w t s v else w
        | Throw _ => w
        end);
     gw_waitForTransaction := fun h _ _ w =>
       match poll_script w with
       | r :: rest =>
           (r, mkWorld (allowances w) (approve_answer w) rest
                 (estimate_answer w) (send_answer w) (clock w))
       | [] => (Ok (Some (mkReceipt h (Some 1))), w)
       end;
     gw_sleep := fun d w =>
       mkWorld (allowances w) (approve_answer w) (poll_script w)
         (estimate_answer w) (send_answer w) (clock w + d);
     gw_estimateGas := fun _ w => (estimate_answer w, w);
     gw_sendTransaction := fun _ w => (send_answer w, w);
     gw_now := clock |}.

(** A readable stand-in for the ABI encoder: it keeps every field and
    refuses nothing. *)
Definition encode (c : RouterCall) : Outcome string :=
  match c with
  | CallMint p =>
      Ok ("mint(" ++ Mint.token0 p ++ "," ++ Mint.token1 p ++ ","
          ++ Js.bigint_toString (Mint.fee p) ++ ","
          ++ Js.bigint_toString (Mint.tickLower p) ++ ","
          ++ Js.bigint_toString (Mint.tickUpper p) ++ ","
          ++ Mint.amount0Desired p ++ "," ++ Mint.amount1Desired p ++ ","
          ++ Mint.amount0Min p ++ "," ++ Mint.amount1Min p ++ ","
          ++ Mint.recipient p ++ ","
          ++ Js.bigint_toString (Mint.deadline p) ++ ")")
  | CallRefundETH => Ok "refundETH()"
  | CallMulticall l => Ok ("multicall[" ++ String.concat ";" l ++ "]")
  end.

Definition wallet : address := "0x00000000000000000000000000000000000000aa".

Definition hashA : string :=
  "0x1111111111111111111111111111111111111111111111111111111111111111".
Definition hashL : string :=
  "0x2222222222222222222222222222222222222222222222222222222222222222".

(** No allowance granted, every call answers, every receipt succeeds. *)
Definition fresh : World :=
  mkWorld (fun _ _ => 0) (Ok hashA) [] (Ok 210000) (Ok hashL) 1700000000000.

Definition with_polls (w : World) (script : list (Outcome (option Receipt)))
  : World :=
  mkWorld (allowances w) (approve_answer w) script (estimate_answer w)
    (send_answer w) (clock w).

Definition with_estimate (w : World) (r : Outcome Z) : World :=
  mkWorld (allowances w) (approve_answer w) (poll_script w) r
    (send_answer w) (clock w).

(** Errors a provider throws: the retried JSON-RPC code, a retried message
    and a timeout. *)
Definition err_unknown_block : JsError :=
  mkError (NumCode (-32008)) "unknown block".
Definition err_lookup : JsError :=
  mkError (StrCode "UNKNOWN_ERROR")
    "could not coalesce error (method=eth_getTransactionReceipt)".
Definition err_timeout : JsError :=
  mkError (StrCode "TIMEOUT") "wait for transaction timeout".

Definition reverted (h : string) : Receipt := mkReceipt h (Some 0).

(** The service of wallet [wallet] named Wallet-1 on the scripted chain. *)
Definition approveToken (mined : bool) :=
  approveToken (gateway mined) wallet "Wallet-1".
Definition waitForTransaction (mined : bool) :=
  waitForTransaction (gateway mined) "Wallet-1".
Definition addLiquidity (mined : bool) :=
  addLiquidity (gateway mined) pharos wallet "Wallet-1" encode.

Definition err_estimate : JsError :=
  mkError (StrCode "CALL_EXCEPTION") "execution reverted".

Definition text (o : Outcome string) : string :=
  match o with
  | Ok s => s
  | Throw _ => ""
  end.

(** The request addLiquidity estimates for 1.5 PHRS and 3.0 USDT in the
    world [fresh]. *)
Definition request : TxRequest :=
  let p := mkPlan (WPHRS pharos) (USDT pharos) (WPHRS pharos) (USDT pharos)
             (15 * 10 ^ 17) (3 * 10 ^ 18) in
  mkTx (ROUTER pharos)
    (text (encode (CallMulticall
                     [text (encode (CallMint (mintParams wallet p (clock fresh))));
                      text (encode CallRefundETH)])))
    (15 * 10 ^ 17) 500000.

(** With [mined] set the scripted chain is an ERC20 chain in the sense
    above. *)
Definition chain : ERC20Chain (gateway true) wallet.
Proof.
  refine (@mkERC20Chain World (gateway true) wallet allowances _ _ _ _ _).
  - intros t s w v H. cbn in H. now inversion H.
  - reflexivity.
  - intros t s v w tx H. cbn in H |- *. rewrite H. cbn.
    now rewrite !String.eqb_refl.
  - intros h c tm w t s. cbn. now destruct (poll_script w).
  - reflexivity.
Defined.

End Sim.

(** ** Decimal amounts as the specification reads them *)

(** The base units of the decimal text [whole.frac]: its value times
    10^18, for a fraction of at most eighteen places. *)
Definition base_units (whole frac : string) : Z :=
  Ethers.digits_val whole * 10 ^ 18
  + Ethers.digits_val frac * 10 ^ (18 - Z.of_nat (String.length frac)).

(** A decimal text [whole.frac] that [parseEther] accepts: digits on both
    sides, at least one of them, at most eighteen places, within the
    format. *)
Definition is_decimal (whole frac : string) : bool :=
  Ethers.all_digits whole && Ethers.all_digits frac
  && (0 <? String.length whole + String.length frac)%nat
  && (String.length frac <=? 18)%nat
  && (base_units whole frac <? 2 ^ 511).

(** [text] is the decimal amount with whole part [whole] and fraction
    [frac]: written with the point, or without it when there is no
    fraction. *)
Definition reads (text whole frac : string) : Prop :=
  is_decimal whole frac = true /\
  (text = whole ++ "." ++ frac \/ (frac = "" /\ text = whole)).

(** Two computations that differ at most in what they log: from every
    world they end with the same outcome in the same world after the same
    calls and waits. *)
Definition same_effects {World A : Type} (m m' : M World A) : Prop :=
  forall w,
    outcome (m w) = outcome (m' w) /\
    world (m w) = world (m' w) /\
    chain_events (events (m w)) = chain_events (events (m' w)).

(** Computations whose events all come before submission. *)
Definition quiet {World A : Type} (m : M World A) : Prop :=
  forall w, Forall before_submission (events (m w)).

(** Computations that follow up every gas estimate. *)
Definition buffers {World A : Type} (m : M World A) : Prop :=
  forall w, buffered (events (m w)).

(** [h] was sent in these events and a receipt with status 1, answered
    by the provider for [h], was polled in them. *)
Definition confirmed_in {World : Type} (gw : Gateway World)
           (evs : list Event) (h : string) : Prop :=
  (exists tx, In (Send tx (Ok h)) evs) /\
  exists rc w',
    In (Poll h 1 60000 (Ok (Some rc))) evs /\ status rc = Some 1 /\
    fst (gw_waitForTransaction gw h 1 60000 w') = Ok (Some rc).

(** Computations that return a hash only when it is confirmed in their
    own events. *)
Definition hash_means_confirmed {World : Type} (gw : Gateway World)
           (m : M World (option string)) : Prop :=
  forall w h, outcome (m w) = Ok (Some h) -> confirmed_in gw (events (m w)) h.

(** The errors the tracker retries, in the words of the specification: the
    provider code -32008, or a message that names the receipt lookup. *)
Definition retried (e : JsError) : Prop :=
  code e = NumCode (-32008) \/
  Js.includes "eth_getTransactionReceipt" (message e) = true.

(** ** Shapes of events and counts of calls *)

(** Computations all of whose events satisfy [P]. *)
Definition always {World A : Type} (P : Event -> Prop) (m : M World A) : Prop :=
  forall w, Forall P (events (m w)).

(** The head every logger line of a service named [name] starts with. *)
Definition log_head (name : string) : string := "System | " ++ name ++ " | ".

(** What approveToken(token, spender, _) of wallet [wallet] may do: read
    the wallet's allowance for that token and spender, approve the maximum
    for them, poll with one confirmation and the fixed timeout, wait 5000
    ms, and log under its own head. *)
Definition approve_event (wallet : address) (name : string)
           (token spender : address) (ev : Event) : Prop :=
  match ev with
  | Log line => prefix (log_head name) line = true
  | Allowance t o s _ => t = token /\ o = wallet /\ s = spender
  | Approve t s amount _ =>
      t = token /\ s = spender /\ amount = Ethers.MaxUint256
  | Poll _ c tm _ => c = 1 /\ tm = 60000
  | Sleep ms => ms = 5000
  | EstimateGas _ _ | Send _ _ => False
  end.

(** What addLiquidity may do: the events of approveToken for a token of the
    table and the router as spender, and gas estimates and sends of
    requests addressed to the router. *)
Definition service_event (c : Contracts) (wallet : address) (name : string)
           (ev : Event) : Prop :=
  match ev with
  | Log line => prefix (log_head name) line = true
  | Allowance t o s _ =>
      In t [WPHRS c; USDT c; USDC c] /\ o = wallet /\ s = ROUTER c
  | Approve t s amount _ =>
      In t [WPHRS c; USDT c; USDC c] /\ s = ROUTER c
      /\ amount = Ethers.MaxUint256
  | Poll _ cf tm _ => cf = 1 /\ tm = 60000
  | Sleep ms => ms = 5000
  | EstimateGas tx _ => to tx = ROUTER c /\ gasLimit tx = 500000
  | Send tx _ => to tx = ROUTER c
  end.

(** The requests of a run that deposits plan [p]: addressed to the router
    and carrying the native value of line 120. *)
Definition request_event (c : Contracts) (p : Plan) (ev : Event) : Prop :=
  match ev with
  | EstimateGas tx _ | Send tx _ =>
      to tx = ROUTER c /\ value tx = nativeValue c p
  | _ => True
  end.

(** The events of the confirmation loop with its fixed delay. *)
Definition paced_event (name h : string) (c d : Z) (ev : Event) : Prop :=
  match ev with
  | Poll h' c' tm _ => h' = h /\ c' = c /\ tm = 60000
  | Sleep ms => ms = d
  | Log line => prefix (log_head name) line = true
  | _ => False
  end.

Definition is_send (ev : Event) : bool :=
  match ev with Send _ _ => true | _ => false end.

Definition is_estimate (ev : Event) : bool :=
  match ev with EstimateGas _ _ => true | _ => false end.

Definition is_read (ev : Event) : bool :=
  match ev with Allowance _ _ _ _ => true | _ => false end.

Definition is_approve (ev : Event) : bool :=
  match ev with Approve _ _ _ _ => true | _ => false end.

Definition count_events (f : Event -> bool) (evs : list Event) : nat :=
  List.length (filter f evs).

(** Computations that emit at most [n] events selected by [f]. *)
Definition at_most {World A : Type} (f : Event -> bool) (n : nat)
           (m : M World A) : Prop :=
  forall w, (count_events f (events (m w)) <= n)%nat.

(** The time spent in timer waits, in milliseconds. *)
Fixpoint waited (evs : list Event) : Z :=
  match evs with
  | [] => 0
  | Sleep ms :: rest => ms + waited rest
  | _ :: rest => waited rest
  end.

(** Lines 97-122: the request addLiquidity builds for a plan in a world,
    when the encoder accepts the mint call, the refund call and their
    batch; the error of the first call it refuses otherwise. *)
Definition liquidity_request {World : Type} (gw : Gateway World)
           (c : Contracts) (wallet : address)
           (enc : RouterCall -> Outcome string) (p : Plan) (w : World)
  : Outcome TxRequest :=
  match enc (CallMint (mintParams wallet p (gw_now gw w))) with
  | Throw e => Throw e
  | Ok mintData =>
      match enc CallRefundETH with
      | Throw e => Throw e
      | Ok refundData =>
          match enc (CallMulticall [mintData; refundData]) with
          | Throw e => Throw e
          | Ok multicall =>
              Ok (mkTx (ROUTER c) multicall (nativeValue c p) 500000)
          end
      end
  end.

(** Computations whose events, when they return, end with a logger
    line. *)
Definition closes_with_log {World A : Type} (m : M World A) : Prop :=
  forall w a, outcome (m w) = Ok a ->
    exists before line, events (m w) = (before ++ [Log line])%list.

(** * Properties *)

Unset Implicit Arguments.

(** ** Strings *)

Lemma upper_char_idem (c : ascii) :
  Js.upper_char (Js.upper_char c) = Js.upper_char c.
Proof. destruct c as [[] [] [] [] [] [] [] []]; reflexivity. Qed.

Lemma toUpperCase_idem (s : string) :
  Js.toUpperCase (Js.toUpperCase s) = Js.toUpperCase s.
Proof.
  induction s as [|c r IH]; simpl; [reflexivity|].
  now rewrite upper_char_idem, IH.
Qed.

Lemma lt_asym (a b : string) : Js.lt a b = true -> Js.lt b a = false.
Proof.
  unfold Js.lt, String.ltb. rewrite (String.compare_antisym b a).
  destruct (String.compare a b); simpl; congruence.
Qed.

Lemma lt_irrefl (a : string) : Js.lt a a = false.
Proof.
  destruct (Js.lt a a) eqn:E; [|reflexivity].
  pose proof (lt_asym _ _ E). congruence.
Qed.

Lemma lt_total (a b : string) :
  Js.lt a b = false -> Js.lt b a = false -> a = b.
Proof.
  unfold Js.lt, String.ltb. rewrite (String.compare_antisym b a).
  destruct (String.compare a b) eqn:E; simpl; try discriminate.
  intros _ _. now apply String.compare_eq_iff.
Qed.

Lemma has_char_app (c : ascii) (a b : string) :
  Js.has_char c (a ++ b) = Js.has_char c a || Js.has_char c b.
Proof.
  induction a as [|d r IH]; simpl; [reflexivity|].
  rewrite IH. now rewrite orb_assoc.
Qed.

Lemma prefix_has_char (c : ascii) (p s : string) :
  prefix p s = true -> Js.has_char c p = true -> Js.has_char c s = true.
Proof.
  revert s. induction p as [|d r IH]; intros s Hp Hc.
  - discriminate.
  - destruct s as [|e t]; [discriminate|].
    cbn [prefix] in Hp. cbn [Js.has_char] in *.
    destruct (ascii_dec d e) as [->|Hne]; [|discriminate].
    apply orb_true_iff in Hc. apply orb_true_iff.
    destruct Hc as [Hc|Hc]; [now left|right; eauto].
Qed.

(** A text that contains [needle] contains each of its code units. *)
Lemma includes_has_char (c : ascii) (needle s : string) :
  Js.includes needle s = true -> Js.has_char c needle = true ->
  Js.has_char c s = true.
Proof.
  induction s as [|d r IH]; cbn [Js.includes Js.has_char]; intros Hi Hc.
  - rewrite orb_false_r in Hi. destruct needle; simpl in *; discriminate.
  - apply orb_true_iff in Hi. destruct Hi as [Hp|Hr].
    + apply (prefix_has_char c _ _ Hp Hc).
    + apply orb_true_iff. right. now apply IH.
Qed.

Lemma hex_digit_not_underscore (c : ascii) :
  Js.is_hex_digit c = true -> Ascii.eqb "_" c = false.
Proof. destruct c as [[] [] [] [] [] [] [] []]; vm_compute; congruence. Qed.

Lemma all_hex_no_underscore (s : string) :
  Js.all_hex s = true -> Js.has_char "_" s = false.
Proof.
  induction s as [|c r IH]; cbn [Js.all_hex Js.has_char]; [reflexivity|].
  intros H. apply andb_true_iff in H. destruct H as [Hc Hr].
  now rewrite (hex_digit_not_underscore _ Hc), IH.
Qed.

Lemma hex_text_no_underscore (h : string) :
  Js.is_hex_text h = true -> Js.has_char "_" h = false.
Proof.
  destruct h as [|a [|b r]]; try discriminate.
  - destruct a as [[] [] [] [] [] [] [] []]; discriminate.
  - destruct a as [[] [] [] [] [] [] [] []]; try discriminate.
    destruct b as [[] [] [] [] [] [] [] []]; try discriminate.
    cbn [Js.is_hex_text Js.has_char]. intros H.
    rewrite (all_hex_no_underscore _ H). reflexivity.
Qed.

(** The error raised at line 47 for a hexadecimal hash is not one of the
    retried errors. *)
Lemma revert_error_not_transient (h : string) :
  Js.is_hex_text h = true ->
  transient (newError ("Transaction " ++ h ++ " failed or reverted")) = false.
Proof.
  intros Hh.
  change (Js.includes "eth_getTransactionReceipt"
            ("Transaction " ++ h ++ " failed or reverted") = false).
  apply not_true_is_false. intros E.
  assert (Hu : Js.has_char "_" ("Transaction " ++ h ++ " failed or reverted") = true).
  { apply (includes_has_char "_" _ _ E). reflexivity. }
  rewrite !has_char_app, (hex_text_no_underscore _ Hh) in Hu.
  discriminate.
Qed.

(** ** Lines 75-86: resolution, ordering and amounts *)

Lemma resolve_some (c : Contracts) (t : string) (a : address) :
  resolve c t = Some a <->
  tokenMap c (Js.toUpperCase t) = Some a /\ String.eqb a "" = false.
Proof.
  unfold resolve. destruct (tokenMap c (Js.toUpperCase t)) as [x|].
  - destruct (String.eqb x "") eqn:E; split.
    + discriminate.
    + intros [H1 H2]. inversion H1; subst. congruence.
    + intros H; inversion H; subst. auto.
    + intros [H1 _]. exact H1.
  - split; [discriminate|intros [H _]; discriminate].
Qed.

Lemma prepare_ready (c : Contracts) (tokenA tokenB amountA amountB : string)
      (a b : address) (va vb : Z) :
  resolve c tokenA = Some a -> resolve c tokenB = Some b ->
  Ethers.parseEther amountA = Some va -> Ethers.parseEther amountB = Some vb ->
  prepare c tokenA tokenB amountA amountB
  = Ready (mkPlan a b (token0_of a b) (token1_of a b)
             (if a_is_token0 a b then va else vb)
             (if a_is_token0 a b then vb else va)).
Proof.
  intros Ha Hb Hva Hvb.
  apply resolve_some in Ha. destruct Ha as [Ha Ha'].
  apply resolve_some in Hb. destruct Hb as [Hb Hb'].
  unfold prepare, a_is_token0. rewrite Ha, Hb. cbn [falsy].
  rewrite Ha', Hb'. cbn [orb].
  destruct (String.eqb a (token0_of a b)); rewrite Hva, Hvb; reflexivity.
Qed.

Lemma prepare_ready_inv (c : Contracts) (tokenA tokenB amountA amountB : string)
      (p : Plan) :
  prepare c tokenA tokenB amountA amountB = Ready p ->
  exists va vb,
    resolve c tokenA = Some (tokenAAddress p) /\
    resolve c tokenB = Some (tokenBAddress p) /\
    Ethers.parseEther amountA = Some va /\
    Ethers.parseEther amountB = Some vb /\
    p = mkPlan (tokenAAddress p) (tokenBAddress p)
          (token0_of (tokenAAddress p) (tokenBAddress p))
          (token1_of (tokenAAddress p) (tokenBAddress p))
          (if a_is_token0 (tokenAAddress p) (tokenBAddress p) then va else vb)
          (if a_is_token0 (tokenAAddress p) (tokenBAddress p) then vb else va).
Proof.
  unfold prepare, a_is_token0.
  destruct (tokenMap c (Js.toUpperCase tokenA)) as [a|] eqn:Ha;
    [|cbn [falsy orb]; discriminate].
  destruct (tokenMap c (Js.toUpperCase tokenB)) as [b|] eqn:Hb;
    [|cbn [falsy]; rewrite orb_true_r; discriminate].
  cbn [falsy].
  destruct (String.eqb a "") eqn:Ea; [cbn [orb]; discriminate|].
  destruct (String.eqb b "") eqn:Eb; [cbn [orb]; discriminate|].
  cbn [orb].
  assert (Ra : resolve c tokenA = Some a) by (apply resolve_some; auto).
  assert (Rb : resolve c tokenB = Some b) by (apply resolve_some; auto).
  destruct (String.eqb a (token0_of a b)) eqn:E.
  - destruct (Ethers.parseEther amountA) as [va|]; [|discriminate].
    destruct (Ethers.parseEther amountB) as [vb|]; [|discriminate].
    intros H; inversion H; subst; cbn. exists va, vb.
    rewrite E. repeat split; auto.
  - destruct (Ethers.parseEther amountB) as [vb|]; [|discriminate].
    destruct (Ethers.parseEther amountA) as [va|]; [|discriminate].
    intros H; inversion H; subst; cbn. exists va, vb.
    rewrite E. repeat split; auto.
Qed.

Lemma token0_of_comm (a b : address) : token0_of a b = token0_of b a.
Proof.
  unfold token0_of.
  destruct (Js.lt a b) eqn:E1.
  - now rewrite (lt_asym _ _ E1).
  - destruct (Js.lt b a) eqn:E2; [reflexivity|].
    symmetry. now apply lt_total.
Qed.

Lemma token1_of_comm (a b : address) : token1_of a b = token1_of b a.
Proof.
  unfold token1_of.
  destruct (Js.lt a b) eqn:E1.
  - now rewrite (lt_asym _ _ E1).
  - destruct (Js.lt b a) eqn:E2; [reflexivity|].
    now apply lt_total.
Qed.

Lemma canonical_not_above (a b : address) :
  Js.lt (token1_of a b) (token0_of a b) = false.
Proof.
  unfold token0_of, token1_of.
  destruct (Js.lt a b) eqn:E; [now apply lt_asym|exact E].
Qed.

Lemma canonical_strict (a b : address) :
  a <> b -> Js.lt (token0_of a b) (token1_of a b) = true.
Proof.
  intros Hne. unfold token0_of, token1_of.
  destruct (Js.lt a b) eqn:E; [exact E|].
  destruct (Js.lt b a) eqn:E'; [reflexivity|].
  exfalso. apply Hne. now apply lt_total.
Qed.

Lemma a_is_token0_lt (a b : address) :
  Js.lt a b = true -> a_is_token0 a b = true.
Proof.
  intros H. unfold a_is_token0, token0_of. rewrite H. apply String.eqb_refl.
Qed.

Lemma a_is_token0_gt (a b : address) :
  Js.lt b a = true -> a_is_token0 a b = false.
Proof.
  intros H. unfold a_is_token0, token0_of. rewrite (lt_asym _ _ H).
  apply String.eqb_neq. intros ->. rewrite lt_irrefl in H. discriminate.
Qed.

Lemma a_is_token0_same (a : address) : a_is_token0 a a = true.
Proof.
  unfold a_is_token0, token0_of. rewrite lt_irrefl. apply String.eqb_refl.
Qed.

(** C8, as amended. For two symbols that resolve, the pair computed at
    lines 83-84 does not depend on the order of the arguments, token1 is
    never below token0, and token0 is strictly below token1 whenever the two
    symbols resolve to different addresses. *)
Theorem canonical_pair_symmetric
        (c : Contracts) (tokenA tokenB amountA amountB : string) (p : Plan) :
  prepare c tokenA tokenB amountA amountB = Ready p ->
  exists q,
    prepare c tokenB tokenA amountB amountA = Ready q /\
    token0 q = token0 p /\ token1 q = token1 p /\
    Js.lt (token1 p) (token0 p) = false /\
    (tokenAAddress p <> tokenBAddress p ->
     Js.lt (token0 p) (token1 p) = true).
Proof.
  intros H. destruct (prepare_ready_inv _ _ _ _ _ _ H)
    as (va & vb & Ra & Rb & Pa & Pb & Hp).
  eexists. split; [apply (prepare_ready _ _ _ _ _ _ _ _ _ Rb Ra Pb Pa)|].
  rewrite Hp. cbn [token0 token1 tokenAAddress tokenBAddress].
  repeat split.
  - apply token0_of_comm.
  - apply token1_of_comm.
  - apply canonical_not_above.
  - apply canonical_strict.
Qed.

Lemma canonical_pair_symmetric_witness :
  exists q,
    prepare pharos "USDT" "PHRS" "3.0" "1.5" = Ready q /\
    token0 q = WPHRS pharos /\ token1 q = USDT pharos /\
    Js.lt (USDT pharos) (WPHRS pharos) = false /\
    (WPHRS pharos <> USDT pharos ->
     Js.lt (WPHRS pharos) (USDT pharos) = true).
Proof.
  exact (canonical_pair_symmetric pharos "PHRS" "USDT" "1.5" "3.0"
           (mkPlan (WPHRS pharos) (USDT pharos) (WPHRS pharos) (USDT pharos)
              1500000000000000000 3000000000000000000)
           eq_refl).
Defined.

(** C8 as stated fails: one token given twice (in any letter case)
    resolves, and the computed pair has token0 = token1, not
    token0 < token1. *)
Lemma same_token_pair_not_strict :
  prepare pharos "USDT" "usdt" "1" "2"
  = Ready (mkPlan (USDT pharos) (USDT pharos) (USDT pharos) (USDT pharos)
             1000000000000000000 2000000000000000000)
  /\ Js.lt (USDT pharos) (USDT pharos) = false.
Proof. split; vm_compute; reflexivity. Qed.

(** ** Runs that differ only in logger lines *)

Lemma chain_events_app (l l' : list Event) :
  chain_events (l ++ l') = (chain_events l ++ chain_events l')%list.
Proof. apply filter_app. Qed.

Section SameEffects.

Context {World : Type}.

Lemma same_effects_refl {A} (m : M World A) : same_effects m m.
Proof. intros w. auto. Qed.

Lemma same_effects_bind {A B} (m m' : M World A) (k k' : A -> M World B) :
  same_effects m m' -> (forall a, same_effects (k a) (k' a)) ->
  same_effects (bind m k) (bind m' k').
Proof.
  intros Hm Hk w. unfold bind.
  destruct (Hm w) as (Ho & Hw & He). rewrite <- Ho, <- Hw.
  destruct (outcome (m w)) as [a|e]; cbn [outcome world events].
  - destruct (Hk a (world (m w))) as (Ho' & Hw' & He').
    rewrite !chain_events_app, He, He'. auto.
  - auto.
Qed.

Lemma same_effects_try_catch {A} (m m' : M World A)
      (h h' : JsError -> M World A) :
  same_effects m m' -> (forall e, same_effects (h e) (h' e)) ->
  same_effects (try_catch m h) (try_catch m' h').
Proof.
  intros Hm Hh w. unfold try_catch.
  destruct (Hm w) as (Ho & Hw & He).
  destruct (outcome (m w)) as [a|e] eqn:E; rewrite <- Ho.
  - rewrite E. auto.
  - destruct (Hh e (world (m w))) as (Ho' & Hw' & He').
    cbn [outcome world events]. rewrite <- Hw.
    rewrite !chain_events_app, He, He'. auto.
Qed.

Lemma same_effects_logger (name text text' : string) :
  same_effects (logger (World := World) name text) (logger name text').
Proof. intros w. cbn. auto. Qed.

End SameEffects.

Lemma prepare_upper (c : Contracts) (tokenA tokenB amountA amountB : string) :
  prepare c (Js.toUpperCase tokenA) (Js.toUpperCase tokenB) amountA amountB
  = prepare c tokenA tokenB amountA amountB.
Proof. unfold prepare. now rewrite !toUpperCase_idem. Qed.

(** C10. Resolution is case-insensitive: a symbol resolves to what its
    upper-cased form resolves to (so usdt, Usdt and USDT name one address),
    and addLiquidity called with the upper-cased symbols returns the same
    result from the same world after the same calls on the chain; only the
    logger lines, which quote the symbols as typed, may differ. *)
Theorem resolution_case_insensitive (c : Contracts) :
  (forall s, resolve c s = resolve c (Js.toUpperCase s)) /\
  resolve c "usdt" = resolve c "USDT" /\
  resolve c "Usdt" = resolve c "USDT" /\
  (forall (World : Type) (gw : Gateway World) (wallet : address)
          (name : string) (enc : RouterCall -> Outcome string)
          (tokenA tokenB amountA amountB : string),
      same_effects
        (addLiquidity gw c wallet name enc tokenA tokenB amountA amountB)
        (addLiquidity gw c wallet name enc
           (Js.toUpperCase tokenA) (Js.toUpperCase tokenB) amountA amountB)).
Proof.
  split; [|split; [|split]].
  - intros s. unfold resolve. now rewrite toUpperCase_idem.
  - reflexivity.
  - reflexivity.
  - intros World gw wallet name enc tokenA tokenB amountA amountB.
    unfold addLiquidity. rewrite prepare_upper.
    apply same_effects_try_catch; [|intros; apply same_effects_refl].
    destruct (prepare c tokenA tokenB amountA amountB) as [| |p].
    + apply same_effects_bind; [apply same_effects_logger|].
      intros; apply same_effects_refl.
    + apply same_effects_refl.
    + apply same_effects_bind; [apply same_effects_refl|]. intros approvedA.
      apply same_effects_bind; [apply same_effects_refl|]. intros approvedB.
      destruct (negb approvedA || negb approvedB).
      * apply same_effects_bind; [apply same_effects_logger|].
        intros; apply same_effects_refl.
      * unfold submitLiquidity.
        do 5 (apply same_effects_bind; [apply same_effects_refl|]; intros).
        apply same_effects_bind; [apply same_effects_logger|]. intros.
        apply same_effects_refl.
Qed.

(** ** parseEther on decimal text *)

Lemma span_digits_all (s : string) :
  Ethers.all_digits s = true -> Ethers.span_digits s = (s, "").
Proof.
  induction s as [|c r IH]; cbn [Ethers.all_digits Ethers.span_digits];
    [reflexivity|].
  intros H. apply andb_true_iff in H. destruct H as [Hc Hr].
  now rewrite Hc, (IH Hr).
Qed.

Lemma span_digits_point (w f : string) :
  Ethers.all_digits w = true ->
  Ethers.span_digits (w ++ String "." f) = (w, String "." f).
Proof.
  induction w as [|c r IH]; cbn [Ethers.all_digits]; intros H.
  - reflexivity.
  - apply andb_true_iff in H. destruct H as [Hc Hr].
    cbn [append Ethers.span_digits]. now rewrite Hc, (IH Hr).
Qed.

Lemma strip_sign_digit (c : ascii) (r : string) :
  Ethers.is_digit c = true ->
  Ethers.strip_sign (String c r) = (false, String c r).
Proof.
  destruct c as [[] [] [] [] [] [] [] []];
    first [discriminate | reflexivity].
Qed.

Lemma strip_sign_decimal (w f : string) :
  Ethers.all_digits w = true ->
  Ethers.strip_sign (w ++ String "." f) = (false, w ++ String "." f).
Proof.
  destruct w as [|c r]; [reflexivity|].
  cbn [Ethers.all_digits]. intros H.
  apply andb_true_iff in H. destruct H as [Hc _].
  cbn [append]. now apply strip_sign_digit.
Qed.

Lemma length_zeros (n : nat) : String.length (Ethers.zeros n) = n.
Proof. induction n; simpl; congruence. Qed.

Lemma length_append (a b : string) :
  String.length (a ++ b) = (String.length a + String.length b)%nat.
Proof. induction a; simpl; congruence. Qed.

Lemma take_all (n : nat) (s : string) :
  (String.length s <= n)%nat -> Ethers.take n s = s.
Proof.
  revert n. induction s as [|c r IH]; intros [|n] H; simpl in *;
    try reflexivity; try lia.
  f_equal. apply IH. lia.
Qed.

Lemma drop_all (n : nat) (s : string) :
  (String.length s <= n)%nat -> Ethers.drop n s = "".
Proof.
  revert n. induction s as [|c r IH]; intros [|n] H; simpl in *;
    try reflexivity; try lia.
  apply IH. lia.
Qed.

Lemma digits_acc_app (acc : Z) (a b : string) :
  Ethers.digits_acc acc (a ++ b) = Ethers.digits_acc (Ethers.digits_acc acc a) b.
Proof. revert acc. induction a; simpl; auto. Qed.

Lemma digits_acc_shift (acc : Z) (s : string) :
  Ethers.digits_acc acc s
  = acc * 10 ^ Z.of_nat (String.length s) + Ethers.digits_val s.
Proof.
  unfold Ethers.digits_val. revert acc.
  induction s as [|c r IH]; intros acc.
  - simpl. lia.
  - cbn [Ethers.digits_acc String.length].
    rewrite (IH (acc * 10 + Ethers.digit_val c)), (IH (0 * 10 + Ethers.digit_val c)).
    rewrite Nat2Z.inj_succ, Z.pow_succ_r by lia. ring.
Qed.

Lemma digits_val_zeros (n : nat) : Ethers.digits_val (Ethers.zeros n) = 0.
Proof.
  unfold Ethers.digits_val. induction n; [reflexivity|].
  cbn [Ethers.zeros Ethers.digits_acc]. exact IHn.
Qed.

Lemma digit_val_nonneg (c : ascii) :
  Ethers.is_digit c = true -> 0 <= Ethers.digit_val c.
Proof.
  unfold Ethers.is_digit, Ethers.digit_val. intros H.
  apply andb_true_iff in H. destruct H as [H _].
  apply Nat.leb_le in H. lia.
Qed.

Lemma digits_acc_nonneg (s : string) (acc : Z) :
  Ethers.all_digits s = true -> 0 <= acc -> 0 <= Ethers.digits_acc acc s.
Proof.
  revert acc. induction s as [|c r IH]; intros acc H Hacc; simpl in *; auto.
  apply andb_true_iff in H. destruct H as [Hc Hr].
  apply IH; auto. pose proof (digit_val_nonneg _ Hc). lia.
Qed.

Lemma base_units_nonneg (w f : string) :
  Ethers.all_digits w = true -> Ethers.all_digits f = true ->
  0 <= base_units w f.
Proof.
  intros Hw Hf. unfold base_units, Ethers.digits_val.
  pose proof (digits_acc_nonneg w 0 Hw (Z.le_refl 0)).
  pose proof (digits_acc_nonneg f 0 Hf (Z.le_refl 0)).
  assert (0 <= 10 ^ (18 - Z.of_nat (String.length f))) by (apply Z.pow_nonneg; lia).
  nia.
Qed.

(** [parseEther] of an accepted decimal text is its value times 10^18. *)
Lemma parseEther_decimal (w f : string) :
  is_decimal w f = true ->
  Ethers.parseEther (w ++ "." ++ f) = Some (base_units w f).
Proof.
  unfold is_decimal. intros H.
  repeat (apply andb_true_iff in H; destruct H as [H ?]).
  rename H into Hw, H3 into Hf, H2 into Hlen, H1 into H18, H0 into Hmax.
  apply Nat.ltb_lt in Hlen. apply Nat.leb_le in H18. apply Z.ltb_lt in Hmax.
  unfold Ethers.parseEther, Ethers.parseUnits.
  change ("." ++ f) with (String "." f).
  rewrite (strip_sign_decimal w f Hw), (span_digits_point w f Hw).
  change (Ethers.strip_point (String "." f)) with f.
  rewrite (span_digits_all f Hf).
  destruct (String.length w + String.length f =? 0)%nat eqn:E;
    [apply Nat.eqb_eq in E; lia|].
  assert (L : String.length (f ++ Ethers.zeros (18 - String.length f)) = 18%nat).
  { rewrite length_append, length_zeros. lia. }
  rewrite drop_all, take_all by lia.
  cbn [Ethers.all_zero negb].
  assert (V : Ethers.digits_val (w ++ f ++ Ethers.zeros (18 - String.length f))
              = base_units w f).
  { unfold base_units, Ethers.digits_val at 1.
    rewrite !digits_acc_app.
    rewrite (digits_acc_shift _ (Ethers.zeros _)), digits_val_zeros, length_zeros.
    rewrite (digits_acc_shift _ f).
    fold (Ethers.digits_val w).
    replace (Z.of_nat (18 - String.length f)) with (18 - Z.of_nat (String.length f)) by lia.
    replace (10 ^ 18) with (10 ^ Z.of_nat (String.length f)
                            * 10 ^ (18 - Z.of_nat (String.length f))).
    - ring.
    - rewrite <- Z.pow_add_r by lia. f_equal. lia. }
  rewrite V.
  pose proof (base_units_nonneg w f Hw Hf) as Hpos.
  assert (B : (- 2 ^ 511 <=? base_units w f) && (base_units w f <? 2 ^ 511) = true).
  { apply andb_true_iff. split; [apply Z.leb_le|apply Z.ltb_lt]; lia. }
  rewrite B. reflexivity.
Qed.

Lemma parseEther_whole (w : string) :
  is_decimal w "" = true ->
  Ethers.parseEther w = Some (base_units w "").
Proof.
  unfold is_decimal. intros H.
  repeat (apply andb_true_iff in H; destruct H as [H ?]).
  rename H into Hw, H2 into Hlen, H0 into Hmax.
  apply Nat.ltb_lt in Hlen. apply Z.ltb_lt in Hmax.
  cbn [String.length] in Hlen.
  unfold Ethers.parseEther, Ethers.parseUnits.
  assert (Hs : Ethers.strip_sign w = (false, w)).
  { destruct w as [|c r]; [cbn in Hlen; lia|].
    cbn [Ethers.all_digits] in Hw. apply andb_true_iff in Hw.
    apply strip_sign_digit. tauto. }
  rewrite Hs, (span_digits_all w Hw).
  change (Ethers.span_digits (Ethers.strip_point "")) with ("", "").
  cbv beta iota.
  destruct (String.length w + String.length "" =? 0)%nat eqn:E;
    [apply Nat.eqb_eq in E; lia|].
  change ("" ++ Ethers.zeros (18 - String.length "")) with (Ethers.zeros 18).
  rewrite drop_all, take_all by (rewrite length_zeros; lia).
  cbn [Ethers.all_zero negb].
  assert (V : Ethers.digits_val (w ++ Ethers.zeros 18) = base_units w "").
  { unfold base_units, Ethers.digits_val at 1.
    rewrite digits_acc_app, digits_acc_shift, digits_val_zeros, length_zeros.
    fold (Ethers.digits_val w). change (Ethers.digits_val "") with 0.
    change (Z.of_nat 18) with 18. ring. }
  rewrite V.
  pose proof (base_units_nonneg w "" Hw eq_refl) as Hpos.
  assert (B : (- 2 ^ 511 <=? base_units w "") && (base_units w "" <? 2 ^ 511) = true).
  { apply andb_true_iff. split; [apply Z.leb_le|apply Z.ltb_lt]; lia. }
  rewrite B. reflexivity.
Qed.

Lemma parseEther_reads (text w f : string) :
  reads text w f -> Ethers.parseEther text = Some (base_units w f).
Proof.
  intros [Hd [->|[-> ->]]].
  - now apply parseEther_decimal.
  - now apply parseEther_whole.
Qed.

(** C5. For two symbols that resolve and two decimal amounts, lines 83-86
    convert each amount to its value times 10^18 and store it in the slot
    of the canonical position its own token took: the amount of tokenA goes
    with token0 when tokenA is token0, with token1 otherwise, and the
    amount of tokenB takes the other slot. *)
Theorem amounts_fill_canonical_slots
        (c : Contracts) (tokenA tokenB amountA amountB : string) (a b : address)
        (wholeA fracA wholeB fracB : string) :
  resolve c tokenA = Some a -> resolve c tokenB = Some b ->
  reads amountA wholeA fracA -> reads amountB wholeB fracB ->
  exists p,
    prepare c tokenA tokenB amountA amountB = Ready p /\
    tokenAAddress p = a /\ tokenBAddress p = b /\
    (Js.lt b a = false ->
     token0 p = a /\ amount0Desired p = base_units wholeA fracA /\
     token1 p = b /\ amount1Desired p = base_units wholeB fracB) /\
    (Js.lt b a = true ->
     token0 p = b /\ amount0Desired p = base_units wholeB fracB /\
     token1 p = a /\ amount1Desired p = base_units wholeA fracA).
Proof.
  intros Ra Rb Da Db.
  eexists. split.
  - apply (prepare_ready c tokenA tokenB _ _ a b _ _ Ra Rb
             (parseEther_reads _ _ _ Da) (parseEther_reads _ _ _ Db)).
  - cbn [tokenAAddress tokenBAddress token0 token1 amount0Desired amount1Desired].
    split; [reflexivity|]. split; [reflexivity|]. split.
    + intros Hba.
      assert (T : a_is_token0 a b = true).
      { destruct (Js.lt a b) eqn:Hab; [now apply a_is_token0_lt|].
        rewrite (lt_total _ _ Hab Hba). apply a_is_token0_same. }
      rewrite T. unfold token0_of, token1_of.
      destruct (Js.lt a b) eqn:Hab; [auto|].
      rewrite (lt_total _ _ Hab Hba). auto.
    + intros Hba. rewrite (a_is_token0_gt _ _ Hba).
      unfold token0_of, token1_of. rewrite (lt_asym _ _ Hba). auto.
Qed.

(** The example of the specification: 1.5 PHRS and 3.0 USDT. *)
Lemma amounts_fill_canonical_slots_witness :
  exists p,
    prepare pharos "PHRS" "USDT" "1.5" "3.0" = Ready p /\
    tokenAAddress p = WPHRS pharos /\ tokenBAddress p = USDT pharos /\
    (Js.lt (USDT pharos) (WPHRS pharos) = false ->
     token0 p = WPHRS pharos /\ amount0Desired p = 15 * 10 ^ 17 /\
     token1 p = USDT pharos /\ amount1Desired p = 3 * 10 ^ 18) /\
    (Js.lt (USDT pharos) (WPHRS pharos) = true ->
     token0 p = USDT pharos /\ amount0Desired p = 3 * 10 ^ 18 /\
     token1 p = WPHRS pharos /\ amount1Desired p = 15 * 10 ^ 17).
Proof.
  exact (amounts_fill_canonical_slots pharos "PHRS" "USDT" "1.5" "3.0"
           (WPHRS pharos) (USDT pharos) "1" "5" "3" "0"
           eq_refl eq_refl
           (conj eq_refl (or_introl eq_refl))
           (conj eq_refl (or_introl eq_refl))).
Defined.

(** Whole amounts and amounts with a fraction, in either order of the
    tokens. *)
Example prepare_usdc_phrs :
  prepare pharos "usdc" "phrs" "25" "0.000001"
  = Ready (mkPlan (USDC pharos) (WPHRS pharos) (WPHRS pharos) (USDC pharos)
             (10 ^ 12) (25 * 10 ^ 18)).
Proof. vm_compute. reflexivity. Qed.

(** ** The amounts handed to approveToken (lines 89-90) *)

(** Line 89 passes tokenA with amount0Desired and line 90 passes tokenB
    with amount1Desired. When tokenB sorts below tokenA these are the
    amounts of the other token. *)
Lemma approval_amounts_crossed
      (c : Contracts) (tokenA tokenB amountA amountB : string) (p : Plan) :
  prepare c tokenA tokenB amountA amountB = Ready p ->
  Js.lt (tokenBAddress p) (tokenAAddress p) = true ->
  Ethers.parseEther amountB = Some (amount0Desired p) /\
  Ethers.parseEther amountA = Some (amount1Desired p).
Proof.
  intros H Hlt.
  destruct (prepare_ready_inv _ _ _ _ _ _ H) as (va & vb & _ & _ & Pa & Pb & Hp).
  rewrite Hp. cbn [amount0Desired amount1Desired].
  rewrite (a_is_token0_gt _ _ Hlt). auto.
Qed.

(** Whatever the two addresses are, as long as they differ, one of the two
    orders of PHRS and USDT is crossed: with 3.0 of tokenA and 1.5 of
    tokenB, line 89 passes tokenA with 1.5 units. *)
Lemma approval_crossed_in_some_order (c : Contracts) :
  WPHRS c <> "" -> USDT c <> "" -> WPHRS c <> USDT c ->
  exists tokenA tokenB p,
    prepare c tokenA tokenB "3.0" "1.5" = Ready p /\
    Ethers.parseEther "3.0" = Some (3 * 10 ^ 18) /\
    amount0Desired p = 15 * 10 ^ 17.
Proof.
  intros Hw Hu Hne.
  assert (Rw : resolve c "PHRS" = Some (WPHRS c)).
  { apply resolve_some. split; [reflexivity|]. now apply String.eqb_neq. }
  assert (Ru : resolve c "USDT" = Some (USDT c)).
  { apply resolve_some. split; [reflexivity|]. now apply String.eqb_neq. }
  assert (P3 : Ethers.parseEther "3.0" = Some (3 * 10 ^ 18)) by reflexivity.
  assert (P1 : Ethers.parseEther "1.5" = Some (15 * 10 ^ 17)) by reflexivity.
  destruct (Js.lt (WPHRS c) (USDT c)) eqn:E.
  - exists "USDT", "PHRS". eexists. split; [|split; [exact P3|]].
    + apply (prepare_ready c "USDT" "PHRS" "3.0" "1.5" _ _ _ _ Ru Rw P3 P1).
    + cbn [amount0Desired]. now rewrite (a_is_token0_gt _ _ E).
  - assert (E' : Js.lt (USDT c) (WPHRS c) = true).
    { destruct (Js.lt (USDT c) (WPHRS c)) eqn:E'; [reflexivity|].
      exfalso. apply Hne. now apply lt_total. }
    exists "PHRS", "USDT". eexists. split; [|split; [exact P3|]].
    + apply (prepare_ready c "PHRS" "USDT" "3.0" "1.5" _ _ _ _ Rw Ru P3 P1).
    + cbn [amount0Desired]. now rewrite (a_is_token0_gt _ _ E').
Qed.

(** C1 fails on the code. With WPHRS below USDT, a call for 3.0 USDT and
    1.5 PHRS asks approveToken to cover 1.5 units of USDT although 3.0 are
    deposited. On a chain where the router already holds an allowance of
    2.0 USDT the check passes, no approval of USDT is broadcast, and the
    mint of 3.0 USDT is sent. *)
Theorem approval_amount_below_deposit :
  let w := Sim.grant Sim.fresh (USDT pharos) (ROUTER pharos) (2 * 10 ^ 18) in
  let r := Sim.addLiquidity true "USDT" "PHRS" "3.0" "1.5" w in
  prepare pharos "USDT" "PHRS" "3.0" "1.5"
  = Ready (mkPlan (USDT pharos) (WPHRS pharos) (WPHRS pharos) (USDT pharos)
             (15 * 10 ^ 17) (3 * 10 ^ 18))
  /\ Ethers.parseEther "3.0" = Some (3 * 10 ^ 18)
  /\ filter (fun ev => match ev with
                       | Allowance _ _ _ _ | Approve _ _ _ _ => true
                       | _ => false
                       end) (events r)
     = [ Allowance (USDT pharos) Sim.wallet (ROUTER pharos) (Ok (2 * 10 ^ 18));
         Allowance (WPHRS pharos) Sim.wallet (ROUTER pharos) (Ok 0);
         Approve (WPHRS pharos) (ROUTER pharos) Ethers.MaxUint256 (Ok Sim.hashA) ]
  /\ outcome r = Ok (Some Sim.hashL).
Proof. vm_compute. repeat split. Qed.

(** ** The confirmation loop *)

Lemma polls_answers (evs : list Event) :
  polls evs = List.length (poll_answers evs).
Proof.
  unfold polls. induction evs as [|[] rest IH]; cbn; congruence.
Qed.

(** A tracked life has at least one poll when there is a budget, and never
    more polls than the budget. *)
Lemma Tracked_bounds (h : string) (budget : nat)
      (answers : list (Outcome (option Receipt))) (res : option Receipt) :
  Tracked h budget answers res ->
  ((0 < budget)%nat -> (1 <= List.length answers)%nat) /\
  (List.length answers <= budget)%nat.
Proof.
  induction 1; cbn [List.length]; split; intros; lia.
Qed.

(** A tracked life ends with a receipt exactly when its last answer is a
    successful receipt, and every earlier answer was a retried error. *)
Lemma Tracked_last (h : string) (budget : nat)
      (answers : list (Outcome (option Receipt))) (res : option Receipt) :
  Tracked h budget answers res ->
  forall before last, answers = (before ++ [last])%list ->
    Forall (fun r => verdict h r = Transient) before /\
    match verdict h last with
    | Success rc => res = Some rc
    | Fatal => res = None
    | Transient => res = None /\ List.length answers = budget
    end.
Proof.
  induction 1 as [|b r rc V|b r V|r V|b r rest res V T IH];
    intros before last E.
  - destruct before; discriminate.
  - destruct before as [|x [|y before]]; try discriminate.
    inversion E; subst. rewrite V. auto.
  - destruct before as [|x [|y before]]; try discriminate.
    inversion E; subst. rewrite V. auto.
  - destruct before as [|x [|y before]]; try discriminate.
    inversion E; subst. rewrite V. auto.
  - destruct before as [|x before].
    + inversion E; subst. inversion T.
    + inversion E; subst.
      destruct (IH before last eq_refl) as [Hb Hl]. split.
      * constructor; auto.
      * destruct (verdict h last); auto.
        destruct Hl as [-> Hl]. split; auto.
        cbn [List.length]. now rewrite Hl.
Qed.

Section WaitForTransaction.

Context {World : Type}.
Variable gw : Gateway World.
Variable name : string.

Local Notation "'sys' text" := ("System | " ++ name ++ " | " ++ text)
  (at level 10, text at level 9, only parsing).

Local Opaque transient append Js.nat_toString.

(** One turn of the loop, by the answer of its poll. *)
Lemma waitLoop_step (fuel : nat) (h : string) (c : Z) (retries : nat)
      (d : Z) (attempt : nat) (w : World) :
  waitLoop gw name (S fuel) h c retries d attempt w
  = let (r, w1) := gw_waitForTransaction gw h c 60000 w in
    match verdict h r with
    | Success rc => mkRun (Ok (Some rc)) w1 [Poll h c 60000 r]
    | Fatal =>
        mkRun (Ok None) w1
          [Poll h c 60000 r;
           Log (sys ("Transaction error: " ++ message (caught h r)))]
    | Transient =>
        let retry_line :=
          Log (sys ("Retry " ++ Js.nat_toString attempt ++ "/"
                    ++ Js.nat_toString retries ++ " for tx " ++ h ++ ": "
                    ++ message (caught h r))) in
        if (attempt =? retries)%nat then
          mkRun (Ok None) w1
            [Poll h c 60000 r; retry_line;
             Log (sys ("Max retries reached for tx " ++ h))]
        else
          let rest :=
            waitLoop gw name fuel h c retries d (S attempt) (gw_sleep gw d w1) in
          mkRun (outcome rest) (world rest)
            (Poll h c 60000 r :: retry_line :: Sleep d :: events rest)
    end.
Proof.
  cbn [waitLoop]. unfold bind at 1, try_catch, bind, call, logger, emit.
  destruct (gw_waitForTransaction gw h c 60000 w) as [r w1].
  unfold verdict. destruct r as [[rc|]|e]; cbn [outcome world events].
  - destruct (succeeded (Some rc)) eqn:S1; cbn.
    + reflexivity.
    + destruct (transient (newError ("Transaction " ++ h ++ " failed or reverted")));
        cbn; [destruct (attempt =? retries)%nat; cbn|]; reflexivity.
  - cbn.
    destruct (transient (newError ("Transaction " ++ h ++ " failed or reverted")));
      cbn; [destruct (attempt =? retries)%nat; cbn|]; reflexivity.
  - destruct (transient e); cbn;
      [destruct (attempt =? retries)%nat; cbn|]; reflexivity.
Qed.

(** Every event of the loop is a poll of the tracked hash, a logger line
    or a wait. *)
Lemma waitLoop_events (h : string) (c : Z) (retries : nat) (d : Z)
      (fuel attempt : nat) (w : World) :
  Forall (loop_event h c)
         (events (waitLoop gw name fuel h c retries d attempt w)).
Proof.
  revert attempt w. induction fuel as [|fuel IH]; intros attempt w.
  - constructor.
  - rewrite waitLoop_step.
    destruct (gw_waitForTransaction gw h c 60000 w) as [r w1].
    destruct (verdict h r); cbn [events];
      [| destruct (attempt =? retries)%nat; cbn [events] |];
      repeat (constructor; [cbn; auto|]); auto.
Qed.

(** A property of the world that polling and waiting keep holds after the
    loop. *)
Lemma waitLoop_world (P : World -> Prop) (h : string) (c : Z)
      (retries : nat) (d : Z) :
  (forall w, P w -> P (snd (gw_waitForTransaction gw h c 60000 w))) ->
  (forall w, P w -> P (gw_sleep gw d w)) ->
  forall fuel attempt w,
    P w -> P (world (waitLoop gw name fuel h c retries d attempt w)).
Proof.
  intros Hpoll Hsleep.
  induction fuel as [|fuel IH]; intros attempt w Hw.
  - exact Hw.
  - rewrite waitLoop_step. specialize (Hpoll w Hw).
    destruct (gw_waitForTransaction gw h c 60000 w) as [r w1].
    cbn [snd] in Hpoll.
    destruct (verdict h r); cbn [world];
      [| destruct (attempt =? retries)%nat; cbn [world] |]; auto.
Qed.

(** The loop returns, its polls follow the life of a tracked
    transaction within the budget, and a wait follows every poll but the
    last. *)
Lemma waitLoop_tracked (h : string) (c : Z) (retries : nat) (d : Z)
      (fuel attempt : nat) (w : World) :
  (attempt + fuel = S retries)%nat ->
  exists res,
    outcome (waitLoop gw name fuel h c retries d attempt w) = Ok res /\
    Tracked h fuel
      (poll_answers (events (waitLoop gw name fuel h c retries d attempt w)))
      res /\
    sleeps (events (waitLoop gw name fuel h c retries d attempt w))
    = pred (polls (events (waitLoop gw name fuel h c retries d attempt w))).
Proof.
  revert attempt w. induction fuel as [|fuel IH]; intros attempt w Hinv.
  - exists None. repeat split. constructor.
  - rewrite waitLoop_step.
    destruct (gw_waitForTransaction gw h c 60000 w) as [r w1].
    destruct (verdict h r) as [rc| |] eqn:V.
    + exists (Some rc). repeat split. now constructor.
    + destruct (attempt =? retries)%nat eqn:E.
      * apply Nat.eqb_eq in E. assert (fuel = 0)%nat by lia. subst fuel.
        exists None. repeat split. now constructor.
      * apply Nat.eqb_neq in E.
        destruct fuel as [|fuel]; [lia|].
        destruct (IH (S attempt) (gw_sleep gw d w1)) as (res & Ho & Ht & Hs);
          [lia|].
        exists res. cbn [outcome events poll_answers]. repeat split; auto.
        -- now constructor.
        -- pose proof (Tracked_bounds _ _ _ _ Ht) as [Hlo _].
           rewrite <- polls_answers in Hlo. specialize (Hlo (Nat.lt_0_succ _)).
           unfold sleeps, polls in *.
           cbn [filter is_sleep is_poll List.length]. lia.
    + exists None. repeat split. now constructor.
Qed.

End WaitForTransaction.

Lemma waitForTransaction_returns {World : Type} (gw : Gateway World)
      (name h : string) (c : Z) (retries : nat) (d : Z) (w : World) :
  exists res, outcome (waitForTransaction gw name h c retries d w) = Ok res.
Proof.
  destruct (waitLoop_tracked gw name h c retries d retries 1 w eq_refl)
    as (res & Ho & _).
  exists res. exact Ho.
Qed.

(** A receipt returned by the loop was answered by the provider for that
    hash and has status 1. *)
Lemma waitLoop_receipt {World : Type} (gw : Gateway World)
      (name h : string) (c : Z) (retries : nat) (d : Z) (rc : Receipt) :
  forall fuel attempt w,
    outcome (waitLoop gw name fuel h c retries d attempt w) = Ok (Some rc) ->
    status rc = Some 1 /\
    In (Poll h c 60000 (Ok (Some rc)))
       (events (waitLoop gw name fuel h c retries d attempt w)) /\
    exists w', fst (gw_waitForTransaction gw h c 60000 w') = Ok (Some rc).
Proof.
  induction fuel as [|fuel IH]; intros attempt w.
  - discriminate.
  - rewrite waitLoop_step.
    destruct (gw_waitForTransaction gw h c 60000 w) as [r w1] eqn:G.
    destruct (verdict h r) as [rc'| |] eqn:V.
    + cbn [outcome events]. intros H. inversion H; subst rc'.
      assert (r = Ok (Some rc) /\ status rc = Some 1) as [-> Hs].
      { unfold verdict in V. destruct r as [[x|]|e].
        - destruct (succeeded (Some x)) eqn:S1.
          + inversion V; subst. split; [reflexivity|].
            cbn in S1. destruct (status rc) as [[|[]|]|]; try discriminate.
            reflexivity.
          + destruct (transient _); discriminate.
        - destruct (transient _); discriminate.
        - destruct (transient e); discriminate. }
      split; [exact Hs|]. split; [left; reflexivity|].
      exists w. now rewrite G.
    + destruct (attempt =? retries)%nat; cbn [outcome events];
        [discriminate|].
      intros H. destruct (IH _ _ H) as (Hs & Hin & Hw).
      split; [exact Hs|]. split; [|exact Hw].
      right. right. right. exact Hin.
    + discriminate.
Qed.

Lemma transient_code (msg : string) :
  transient (mkError (NumCode (-32008)) msg) = true.
Proof. reflexivity. Qed.

Lemma transient_message (c : ErrCode) (msg : string) :
  Js.includes "eth_getTransactionReceipt" msg = true ->
  transient (mkError c msg) = true.
Proof.
  intros H. unfold transient. cbn [code message]. rewrite H.
  destruct c; auto using orb_true_r.
Qed.

(** Line 49 retries exactly the errors with code -32008 or with a message
    that names eth_getTransactionReceipt. *)
Lemma transient_iff (e : JsError) : transient e = true <-> retried e.
Proof.
  unfold transient, retried. destruct e as [cd msg]. cbn [code message].
  destruct cd as [|n|t].
  - split; [auto|]. intros [H|H]; [discriminate|exact H].
  - rewrite orb_true_iff, Z.eqb_eq. split.
    + intros [->|H]; auto.
    + intros [H|H]; [left; congruence|auto].
  - split; [auto|]. intros [H|H]; [discriminate|exact H].
Qed.

(** Line 44 accepts exactly the receipts with status 1. *)
Lemma succeeded_iff (receipt : option Receipt) :
  succeeded receipt = true <->
  exists rc, receipt = Some rc /\ status rc = Some 1.
Proof.
  unfold succeeded. destruct receipt as [rc|].
  - destruct (status rc) as [[|[]|]|] eqn:E; split;
      try discriminate; try (intros (rc' & H & Hs); inversion H; subst;
                              congruence).
    intros _. exists rc. auto.
  - split; [discriminate|]. intros (rc & H & _). discriminate.
Qed.

Lemma verdict_success (h : string) (r : Outcome (option Receipt)) (rc : Receipt) :
  verdict h r = Success rc <-> r = Ok (Some rc) /\ status rc = Some 1.
Proof.
  unfold verdict. destruct r as [[x|]|e].
  - destruct (succeeded (Some x)) eqn:S1.
    + apply succeeded_iff in S1. destruct S1 as (x' & Hx & Hs).
      inversion Hx; subst x'. split.
      * intros H. inversion H; subst. auto.
      * intros [H _]. inversion H; subst. reflexivity.
    + split.
      * destruct (transient _); discriminate.
      * intros [H Hs]. inversion H; subst x.
        assert (succeeded (Some rc) = true) by (apply succeeded_iff; eauto).
        congruence.
  - split; [destruct (transient _); discriminate|intros [H _]; discriminate].
  - split; [destruct (transient e); discriminate|intros [H _]; discriminate].
Qed.

Lemma verdict_transient (h : string) (r : Outcome (option Receipt)) :
  verdict h r = Transient <->
  (exists e, r = Throw e /\ retried e) \/
  (exists x, r = Ok x /\
             (forall rc, x = Some rc -> status rc <> Some 1) /\
             retried (newError ("Transaction " ++ h ++ " failed or reverted"))).
Proof.
  unfold verdict. destruct r as [x|e].
  - assert (Hx : succeeded x = false <->
                 forall rc, x = Some rc -> status rc <> Some 1).
    { split.
      - intros S1 rc -> Hs.
        assert (succeeded (Some rc) = true) by (apply succeeded_iff; eauto).
        congruence.
      - intros H. destruct (succeeded x) eqn:S1; [|reflexivity].
        apply succeeded_iff in S1. destruct S1 as (rc & -> & Hs).
        destruct (H rc eq_refl Hs). }
    split.
    + intros H. right. exists x. split; [reflexivity|].
      assert (T : transient (newError ("Transaction " ++ h ++ " failed or reverted"))
                  = true /\ succeeded x = false).
      { destruct x as [rc|].
        - destruct (succeeded (Some rc)); [discriminate|].
          destruct (transient _); [auto|discriminate].
        - destruct (transient _); [auto|discriminate]. }
      destruct T as [T S1]. split; [now apply Hx|now apply transient_iff].
    + intros [(e & H & _)|(x' & H & Hst & Hr)]; [discriminate|].
      inversion H; subst x'. apply Hx in Hst. apply transient_iff in Hr.
      destruct x as [rc|]; [rewrite Hst|]; now rewrite Hr.
  - split.
    + intros H. left. exists e. split; [reflexivity|].
      apply transient_iff. destruct (transient e); [reflexivity|discriminate].
    + intros [(e' & H & Hr)|(x & H & _)]; [|discriminate].
      inversion H; subst e'. apply transient_iff in Hr. now rewrite Hr.
Qed.

(** C6. waitForTransaction returns, never throws, and polls at most
    [retries] times, with one wait after every poll but the last. Every
    poll before the last ended in a retried error: the provider threw one
    (code -32008, or a message naming eth_getTransactionReceipt), or the
    receipt was not successful and the error of line 47 is itself such an
    error, which no hexadecimal hash allows. On the last poll, a receipt
    with status 1 is the result; every other answer gives null, and when
    its error is a retried one the budget is used up, with exactly
    [retries] polls. So an error that is not retried ends the loop on its
    own attempt. The two tests of the code are exactly these: a receipt
    succeeds when it has status 1, an error is retried when it has that
    code or such a message. *)
Theorem waitForTransaction_bounded
        (World : Type) (gw : Gateway World) (name h : string) (c : Z)
        (retries : nat) (d : Z) (w : World) :
  exists res,
    outcome (waitForTransaction gw name h c retries d w) = Ok res /\
    (polls (events (waitForTransaction gw name h c retries d w)) <= retries)%nat /\
    sleeps (events (waitForTransaction gw name h c retries d w))
    = pred (polls (events (waitForTransaction gw name h c retries d w))) /\
    Tracked h retries
      (poll_answers (events (waitForTransaction gw name h c retries d w))) res /\
    (forall before last,
        poll_answers (events (waitForTransaction gw name h c retries d w))
        = (before ++ [last])%list ->
        (forall r, In r before ->
           (exists e, r = Throw e /\ retried e) \/
           (exists x, r = Ok x /\
                      (forall rc, x = Some rc -> status rc <> Some 1) /\
                      retried (newError ("Transaction " ++ h
                                         ++ " failed or reverted")))) /\
        match last with
        | Ok (Some rc) =>
            (status rc = Some 1 -> res = Some rc) /\
            (status rc <> Some 1 ->
             res = None /\
             (retried (newError ("Transaction " ++ h ++ " failed or reverted")) ->
              polls (events (waitForTransaction gw name h c retries d w))
              = retries))
        | Ok None =>
            res = None /\
            (retried (newError ("Transaction " ++ h ++ " failed or reverted")) ->
             polls (events (waitForTransaction gw name h c retries d w))
             = retries)
        | Throw e =>
            res = None /\
            (retried e ->
             polls (events (waitForTransaction gw name h c retries d w))
             = retries)
        end) /\
    (forall e, transient e = true <-> retried e) /\
    (forall receipt,
        succeeded receipt = true <->
        exists rc, receipt = Some rc /\ status rc = Some 1) /\
    (Js.is_hex_text h = true ->
     ~ retried (newError ("Transaction " ++ h ++ " failed or reverted"))).
Proof.
  unfold waitForTransaction.
  destruct (waitLoop_tracked gw name h c retries d retries 1 w eq_refl)
    as (res & Ho & Ht & Hs).
  exists res. split; [exact Ho|]. split.
  - rewrite polls_answers. apply (Tracked_bounds _ _ _ _ Ht).
  - split; [exact Hs|]. split; [exact Ht|]. split.
    + intros before last E.
      destruct (Tracked_last _ _ _ _ Ht before last E) as [Hb Hl].
      rewrite polls_answers.
      split.
      * intros r Hr. rewrite Forall_forall in Hb.
        apply (proj1 (verdict_transient h r) (Hb r Hr)).
      * assert (Hret : forall x,
                   last = Ok x ->
                   (forall rc, x = Some rc -> status rc <> Some 1) ->
                   res = None /\
                   (retried (newError ("Transaction " ++ h ++ " failed or reverted")) ->
                    List.length
                      (poll_answers
                         (events (waitLoop gw name retries h c retries d 1 w)))
                    = retries)).
        { intros x -> Hx. destruct (verdict h (Ok x)) as [rc| |] eqn:V.
          - apply verdict_success in V. destruct V as [V Hst].
            inversion V; subst x. destruct (Hx rc eq_refl Hst).
          - destruct Hl as [-> Hlen]. split; [reflexivity|]. intros _. exact Hlen.
          - split; [exact Hl|]. intros Hr.
            assert (V' : verdict h (Ok x) = Transient).
            { apply verdict_transient. right. exists x. auto. }
            congruence. }
        destruct last as [[rc|]|e].
        -- split.
           ++ intros Hst.
              assert (V : verdict h (Ok (Some rc)) = Success rc)
                by (apply verdict_success; auto).
              rewrite V in Hl. exact Hl.
           ++ intros Hst. apply (Hret (Some rc) eq_refl).
              intros rc' Hrc'. inversion Hrc'; subst rc'. exact Hst.
        -- apply (Hret None eq_refl). intros rc' Hrc'. discriminate.
        -- destruct (verdict h (Throw e)) as [rc| |] eqn:V.
           ++ apply verdict_success in V. destruct V as [V _]. discriminate.
           ++ destruct Hl as [-> Hlen]. split; [reflexivity|]. intros _. exact Hlen.
           ++ split; [exact Hl|]. intros Hr.
              assert (V' : verdict h (Throw e) = Transient).
              { apply verdict_transient. left. exists e. auto. }
              congruence.
    + split; [apply transient_iff|]. split; [apply succeeded_iff|].
      intros Hh Hr. apply transient_iff in Hr.
      rewrite (revert_error_not_transient h Hh) in Hr. discriminate.
Qed.

(** A retried error, then a message-classified one, then a receipt. *)
Example tracker_retry_then_success :
  let r := Sim.waitForTransaction true Sim.hashL 1 5 5000
             (Sim.with_polls Sim.fresh
                [Throw Sim.err_unknown_block; Throw Sim.err_lookup]) in
  outcome r = Ok (Some (mkReceipt Sim.hashL (Some 1)))
  /\ polls (events r) = 3%nat /\ sleeps (events r) = 2%nat.
Proof. vm_compute. auto. Qed.

(** Five retried errors use the budget up. *)
Example tracker_exhausted :
  let r := Sim.waitForTransaction true Sim.hashL 1 5 5000
             (Sim.with_polls Sim.fresh
                (repeat (Throw Sim.err_unknown_block) 7)) in
  outcome r = Ok None /\ polls (events r) = 5%nat /\ sleeps (events r) = 4%nat.
Proof. vm_compute. auto. Qed.

Lemma verdict_reverted (h : string) (rc : Receipt) :
  Js.is_hex_text h = true -> status rc <> Some 1 ->
  verdict h (Ok (Some rc)) = Fatal.
Proof.
  intros Hh Hst. unfold verdict.
  assert (S1 : succeeded (Some rc) = false).
  { destruct (succeeded (Some rc)) eqn:S1; [|reflexivity].
    apply succeeded_iff in S1. destruct S1 as (x & Hx & Hs).
    inversion Hx; subst. contradiction. }
  rewrite S1. now rewrite (revert_error_not_transient h Hh).
Qed.

(** A turn of the loop that polls a reverted receipt, at whatever attempt
    and with whatever budget left, is the last one. *)
Lemma waitLoop_reverted_turn {World : Type} (gw : Gateway World)
      (name h : string) (c : Z) (retries : nat) (d : Z) (rc : Receipt)
      (fuel attempt : nat) (w w1 : World) :
  Js.is_hex_text h = true -> status rc <> Some 1 ->
  gw_waitForTransaction gw h c 60000 w = (Ok (Some rc), w1) ->
  waitLoop gw name (S fuel) h c retries d attempt w
  = mkRun (Ok None) w1
      [Poll h c 60000 (Ok (Some rc));
       Log ("System | " ++ name ++ " | Transaction error: Transaction " ++ h
            ++ " failed or reverted")].
Proof.
  intros Hh Hst Hpoll.
  rewrite waitLoop_step, Hpoll, (verdict_reverted h rc Hh Hst). reflexivity.
Qed.

(** Wherever a reverted receipt stands among the poll answers of the loop,
    it is the last answer. *)
Lemma waitLoop_reverted_trace {World : Type} (gw : Gateway World)
      (name h : string) (c : Z) (retries : nat) (d : Z) (rc : Receipt) :
  Js.is_hex_text h = true -> status rc <> Some 1 ->
  forall fuel attempt w before after,
    poll_answers (events (waitLoop gw name fuel h c retries d attempt w))
    = (before ++ Ok (Some rc) :: after)%list ->
    after = [] /\
    outcome (waitLoop gw name fuel h c retries d attempt w) = Ok None /\
    exists pre,
      events (waitLoop gw name fuel h c retries d attempt w)
      = (pre ++ [Poll h c 60000 (Ok (Some rc));
                 Log ("System | " ++ name ++ " | Transaction error: Transaction "
                      ++ h ++ " failed or reverted")])%list /\
      polls pre = List.length before /\ sleeps pre = List.length before.
Proof.
  intros Hh Hst.
  assert (One : forall (r : Outcome (option Receipt)) before after,
             [r] = (before ++ Ok (Some rc) :: after)%list ->
             before = [] /\ after = [] /\ r = Ok (Some rc)).
  { intros r before after E. destruct before as [|x [|y before]].
    - inversion E; auto.
    - inversion E.
    - inversion E. }
  induction fuel as [|fuel IH]; intros attempt w before after E.
  - destruct before; discriminate.
  - revert E. rewrite waitLoop_step.
    destruct (gw_waitForTransaction gw h c 60000 w) as [r w1].
    destruct (verdict h r) as [rc'| |] eqn:V.
    + cbn [events poll_answers]. intros E.
      destruct (One _ _ _ E) as (_ & _ & ->).
      rewrite (verdict_reverted h rc Hh Hst) in V. discriminate.
    + destruct (attempt =? retries)%nat.
      * cbn [events poll_answers]. intros E.
        destruct (One _ _ _ E) as (_ & _ & ->).
        rewrite (verdict_reverted h rc Hh Hst) in V. discriminate.
      * cbn [events outcome poll_answers]. intros E.
        destruct before as [|x before].
        -- inversion E; subst r.
           rewrite (verdict_reverted h rc Hh Hst) in V. discriminate.
        -- inversion E as [[Ex E']]. subst x.
           destruct (IH _ _ _ _ E') as (Ha & Ho & pre & Ev & Hp & Hsl).
           split; [exact Ha|]. split; [exact Ho|].
           eexists (_ :: _ :: _ :: pre). split; [rewrite Ev; reflexivity|].
           unfold polls, sleeps in *.
           cbn [filter is_poll is_sleep List.length]. split; congruence.
    + cbn [events outcome poll_answers]. intros E.
      destruct (One _ _ _ E) as (-> & -> & ->).
      split; [reflexivity|]. split; [reflexivity|].
      exists []. split; [reflexivity|]. split; reflexivity.
Qed.

(** C3, as amended. A receipt whose status is not 1 is not retried, at
    whatever attempt it is obtained: for a hexadecimal transaction hash the
    error raised at line 47 is not one of the retried errors, so the turn
    that polls such a receipt logs a transaction error and returns null
    with no wait and no further poll. In a run of waitForTransaction such a
    receipt is therefore the last poll answer, the result is null, the
    events end with that poll and the transaction-error line, and the only
    waits are those after the earlier polls. *)
Theorem reverted_receipt_returns_at_once
        (World : Type) (gw : Gateway World) (name h : string) (c : Z)
        (retries : nat) (d : Z) (w : World) (rc : Receipt)
        (before after : list (Outcome (option Receipt))) :
  Js.is_hex_text h = true ->
  status rc <> Some 1 ->
  poll_answers (events (waitForTransaction gw name h c retries d w))
  = (before ++ Ok (Some rc) :: after)%list ->
  after = [] /\
  outcome (waitForTransaction gw name h c retries d w) = Ok None /\
  polls (events (waitForTransaction gw name h c retries d w))
  = S (List.length before) /\
  sleeps (events (waitForTransaction gw name h c retries d w))
  = List.length before /\
  (exists pre,
      events (waitForTransaction gw name h c retries d w)
      = (pre ++ [Poll h c 60000 (Ok (Some rc));
                 Log ("System | " ++ name ++ " | Transaction error: Transaction "
                      ++ h ++ " failed or reverted")])%list) /\
  (forall fuel attempt w0 w1,
      gw_waitForTransaction gw h c 60000 w0 = (Ok (Some rc), w1) ->
      waitLoop gw name (S fuel) h c retries d attempt w0
      = mkRun (Ok None) w1
          [Poll h c 60000 (Ok (Some rc));
           Log ("System | " ++ name ++ " | Transaction error: Transaction " ++ h
                ++ " failed or reverted")]).
Proof.
  intros Hh Hst E. unfold waitForTransaction in *.
  destruct (waitLoop_reverted_trace gw name h c retries d rc Hh Hst
              retries 1 w before after E)
    as (Ha & Ho & pre & Ev & Hp & Hs).
  split; [exact Ha|]. split; [exact Ho|].
  split; [|split; [|split]].
  - rewrite Ev. unfold polls in *. rewrite filter_app, length_app.
    cbn [filter is_poll List.length]. lia.
  - rewrite Ev. unfold sleeps in *. rewrite filter_app, length_app.
    cbn [filter is_sleep List.length]. lia.
  - exists pre. exact Ev.
  - intros fuel attempt w0 w1 Hpoll.
    apply (waitLoop_reverted_turn gw name h c retries d rc fuel attempt w0 w1
             Hh Hst Hpoll).
Qed.

(** A retried error on the first attempt, a reverted receipt on the
    second: two polls, one wait, null, and three attempts left unused. *)
Lemma reverted_receipt_returns_at_once_witness :
  let run := Sim.waitForTransaction true Sim.hashL 1 5 5000
               (Sim.with_polls Sim.fresh
                  [Throw Sim.err_unknown_block;
                   Ok (Some (Sim.reverted Sim.hashL));
                   Ok (Some (Sim.reverted Sim.hashL))]) in
  outcome run = Ok None /\ polls (events run) = 2%nat /\
  sleeps (events run) = 1%nat.
Proof.
  intros run.
  destruct (reverted_receipt_returns_at_once Sim.World (Sim.gateway true)
              "Wallet-1" Sim.hashL 1 5 5000
              (Sim.with_polls Sim.fresh
                 [Throw Sim.err_unknown_block;
                  Ok (Some (Sim.reverted Sim.hashL));
                  Ok (Some (Sim.reverted Sim.hashL))])
              (Sim.reverted Sim.hashL) [Throw Sim.err_unknown_block] [])
    as (_ & Ho & Hp & Hs & _).
  - reflexivity.
  - discriminate.
  - reflexivity.
  - split; [exact Ho|]. split; [exact Hp|exact Hs].
Defined.

(** C3 as stated fails: on a chain that answers every poll with a reverted
    receipt, a budget of five attempts is not used; there is one poll, no
    wait, and the result is null. *)
Lemma reverted_receipt_polled_once :
  let r := Sim.waitForTransaction true Sim.hashL 1 5 5000
             (Sim.with_polls Sim.fresh
                (repeat (Ok (Some (Sim.reverted Sim.hashL))) 5)) in
  outcome r = Ok None /\ polls (events r) = 1%nat /\ sleeps (events r) = 0%nat.
Proof. vm_compute. auto. Qed.

(** ** approveToken *)

(** The confirmation loop broadcasts nothing. *)
Lemma waitForTransaction_no_approval {World : Type} (gw : Gateway World)
      (name h : string) (c : Z) (n : nat) (d : Z) (w : World) :
  approvals (events (waitForTransaction gw name h c n d w)) = 0%nat.
Proof.
  unfold waitForTransaction, approvals.
  pose proof (waitLoop_events gw name h c n d n 1 w) as F.
  induction F as [|ev l Hev _ IH]; [reflexivity|].
  destruct ev; cbn in *; try contradiction; auto.
Qed.

Section ApproveToken.

Context {World : Type}.
Variable gw : Gateway World.
Variable wallet : address.
Variable name : string.

Local Opaque append waitForTransaction.

(** The four ways a call of approveToken runs. *)
Lemma approveToken_run (t s : address) (amount : Z) (w : World) :
  approveToken gw wallet name t s amount w
  = let (r, w1) := gw_allowance gw t wallet s w in
    match r with
    | Throw e =>
        mkRun (Ok false) w1
          [Allowance t wallet s r;
           Log ("System | " ++ name ++ " | " ++ ("Approval failed: " ++ message e))]
    | Ok v =>
        if v >=? amount then
          mkRun (Ok true) w1
            [Allowance t wallet s r;
             Log ("System | " ++ name ++ " | " ++ ("Token already approved for " ++ s))]
        else
          let (ra, w2) := gw_approve gw t s Ethers.MaxUint256 w1 in
          match ra with
          | Throw e =>
              mkRun (Ok false) w2
                [Allowance t wallet s r;
                 Log ("System | " ++ name ++ " | "
                      ++ ("Approving token " ++ t ++ " for " ++ s));
                 Approve t s Ethers.MaxUint256 ra;
                 Log ("System | " ++ name ++ " | " ++ ("Approval failed: " ++ message e))]
          | Ok tx =>
              let rw := waitForTransaction gw name tx 1 5 5000 w2 in
              mkRun (Ok true) (world rw)
                (Allowance t wallet s r
                 :: Log ("System | " ++ name ++ " | "
                         ++ ("Approving token " ++ t ++ " for " ++ s))
                 :: Approve t s Ethers.MaxUint256 ra
                 :: events rw
                 ++ [Log ("System | " ++ name ++ " | "
                          ++ ("Approval successful for " ++ t))])
          end
    end.
Proof.
  unfold approveToken, try_catch, bind, call, logger, emit.
  destruct (gw_allowance gw t wallet s w) as [[v|e] w1];
    cbn [outcome world events]; [|reflexivity].
  destruct (v >=? amount); cbn [outcome world events]; [reflexivity|].
  destruct (gw_approve gw t s Ethers.MaxUint256 w1) as [[tx|e] w2];
    cbn [outcome world events]; [|reflexivity].
  destruct (waitForTransaction_returns gw name tx 1 5 5000 w2) as (res & Ho).
  rewrite Ho. cbn [outcome world events ret app].
  reflexivity.
Qed.

(** approveToken returns a boolean; nothing it calls makes it throw. *)
Lemma approveToken_returns (t s : address) (amount : Z) (w : World) :
  exists b, outcome (approveToken gw wallet name t s amount w) = Ok b.
Proof.
  rewrite approveToken_run.
  destruct (gw_allowance gw t wallet s w) as [[v|e] w1];
    [|eexists; reflexivity].
  destruct (v >=? amount); [eexists; reflexivity|].
  destruct (gw_approve gw t s Ethers.MaxUint256 w1) as [[tx|e] w2];
    eexists; reflexivity.
Qed.

(** Once the approval is broadcast the answer is true, whatever the
    confirmation loop returned. *)
Lemma approveToken_ignores_confirmation
      (t s : address) (amount v : Z) (tx : string) (w w1 w2 : World) :
  gw_allowance gw t wallet s w = (Ok v, w1) -> v < amount ->
  gw_approve gw t s Ethers.MaxUint256 w1 = (Ok tx, w2) ->
  outcome (approveToken gw wallet name t s amount w) = Ok true.
Proof.
  intros Hr Hlt Ha. rewrite approveToken_run, Hr.
  destruct (v >=? amount) eqn:E; [apply Z.geb_le in E; lia|].
  now rewrite Ha.
Qed.

(** One call broadcasts at most one approval, and only after it read an
    allowance below the requested amount. *)
Lemma approveToken_approvals (t s : address) (amount : Z) (w : World) :
  (approvals (events (approveToken gw wallet name t s amount w)) <= 1)%nat /\
  (approvals (events (approveToken gw wallet name t s amount w)) = 1%nat ->
   exists v w1 tx w2,
     gw_allowance gw t wallet s w = (Ok v, w1) /\ v < amount /\
     gw_approve gw t s Ethers.MaxUint256 w1 = (Ok tx, w2) /\
     world (approveToken gw wallet name t s amount w)
     = world (waitForTransaction gw name tx 1 5 5000 w2)) /\
  (forall v w1, gw_allowance gw t wallet s w = (Ok v, w1) -> amount <= v ->
     approvals (events (approveToken gw wallet name t s amount w)) = 0%nat /\
     world (approveToken gw wallet name t s amount w) = w1) /\
  (forall e w1, gw_allowance gw t wallet s w = (Throw e, w1) ->
     approvals (events (approveToken gw wallet name t s amount w)) = 0%nat).
Proof.
  rewrite approveToken_run.
  destruct (gw_allowance gw t wallet s w) as [[v|e] w1].
  - destruct (v >=? amount) eqn:E.
    + apply Z.geb_le in E. cbn [events world].
      split; [cbn; lia|]. split; [cbn; discriminate|]. split.
      * intros v' w' H _. inversion H; subst. auto.
      * intros e w' H. inversion H.
    + assert (Hlt : v < amount).
      { destruct (Z.lt_ge_cases v amount) as [Hlt|Hge]; [exact Hlt|].
        apply Z.geb_le in Hge. congruence. }
      destruct (gw_approve gw t s Ethers.MaxUint256 w1) as [[tx|e] w2] eqn:Ha.
      * assert (A : approvals
                      (Allowance t wallet s (Ok v)
                       :: Log ("System | " ++ name ++ " | "
                               ++ ("Approving token " ++ t ++ " for " ++ s))
                       :: Approve t s Ethers.MaxUint256 (Ok tx)
                       :: events (waitForTransaction gw name tx 1 5 5000 w2)
                       ++ [Log ("System | " ++ name ++ " | "
                                ++ ("Approval successful for " ++ t))]) = 1%nat).
        { unfold approvals. cbn [filter is_submitted_approval List.length].
          rewrite filter_app, length_app. cbn [filter is_submitted_approval List.length].
          fold (approvals (events (waitForTransaction gw name tx 1 5 5000 w2))).
          rewrite (waitForTransaction_no_approval gw name). reflexivity. }
        cbn [events world]. rewrite A.
        split; [lia|]. split; [|split].
        -- intros _. exists v, w1, tx, w2.
           split; [reflexivity|]. split; [exact Hlt|]. split; [exact Ha|reflexivity].
        -- intros v' w' H Hle. inversion H; subst. lia.
        -- intros e w' H. inversion H.
      * cbn [events world].
        split; [cbn; lia|]. split; [cbn; discriminate|]. split.
        -- intros v' w' H Hle. inversion H; subst. lia.
        -- intros e' w' H. inversion H.
  - cbn [events world].
    split; [cbn; lia|]. split; [cbn; discriminate|]. split.
    + intros v' w' H. inversion H.
    + intros e' w' _. reflexivity.
Qed.


End ApproveToken.

(** C2 fails on the code. The allowance is short, the approval is
    broadcast, and the confirmation loop returns null (a timeout in the
    first world, a reverted receipt in the second); approveToken
    nevertheless logs success and returns true. *)
Theorem approval_reported_without_confirmation :
  let w_timeout := Sim.with_polls Sim.fresh [Throw Sim.err_timeout] in
  let w_reverted :=
    Sim.with_polls Sim.fresh [Ok (Some (Sim.reverted Sim.hashA))] in
  outcome (Sim.waitForTransaction false Sim.hashA 1 5 5000 w_timeout) = Ok None
  /\ outcome (Sim.approveToken false (USDT pharos) (ROUTER pharos)
                (3 * 10 ^ 18) w_timeout) = Ok true
  /\ outcome (Sim.waitForTransaction false Sim.hashA 1 5 5000 w_reverted) = Ok None
  /\ events (Sim.approveToken false (USDT pharos) (ROUTER pharos)
               (3 * 10 ^ 18) w_reverted)
     = [ Allowance (USDT pharos) Sim.wallet (ROUTER pharos) (Ok 0);
         Log ("System | Wallet-1 | Approving token " ++ USDT pharos ++ " for "
              ++ ROUTER pharos);
         Approve (USDT pharos) (ROUTER pharos) Ethers.MaxUint256 (Ok Sim.hashA);
         Poll Sim.hashA 1 60000 (Ok (Some (Sim.reverted Sim.hashA)));
         Log ("System | Wallet-1 | Transaction error: Transaction " ++ Sim.hashA
              ++ " failed or reverted");
         Log ("System | Wallet-1 | Approval successful for " ++ USDT pharos) ]
  /\ outcome (Sim.approveToken false (USDT pharos) (ROUTER pharos)
                (3 * 10 ^ 18) w_reverted) = Ok true.
Proof. vm_compute. repeat split. Qed.

(** ** Two calls of approveToken in succession *)

Section ApproveTwice.

Context {World : Type}.
Variable gw : Gateway World.
Variable wallet : address.
Variable name : string.
Variable chain : ERC20Chain gw wallet.

(** After a call that broadcast an approval, the allowance in force is
    the maximum. *)
Lemma approved_allowance_is_max (t s : address) (amount : Z) (w : World) :
  approvals (events (approveToken gw wallet name t s amount w)) = 1%nat ->
  allowance_of chain (world (approveToken gw wallet name t s amount w)) t s
  = Ethers.MaxUint256.
Proof.
  intros H.
  destruct (approveToken_approvals gw wallet name t s amount w)
    as (_ & Hone & _).
  destruct (Hone H) as (v & w1 & tx & w2 & _ & _ & Ha & Hw).
  rewrite Hw. unfold waitForTransaction.
  apply (waitLoop_world gw name
           (fun w' => allowance_of chain w' t s = Ethers.MaxUint256)).
  - intros w' Hw'. now rewrite poll_keeps.
  - intros w' Hw'. now rewrite sleep_keeps.
  - pose proof (@approve_sets _ _ _ chain t s Ethers.MaxUint256 w1 tx) as Hs.
    rewrite Ha in Hs. cbn [fst snd] in Hs. now apply Hs.
Qed.

(** A call that reads an allowance in force of at least the requested
    amount broadcasts nothing. *)
Lemma covered_call_is_silent (t s : address) (amount : Z) (w : World) :
  amount <= allowance_of chain w t s ->
  approvals (events (approveToken gw wallet name t s amount w)) = 0%nat.
Proof.
  intros Hcov.
  destruct (approveToken_approvals gw wallet name t s amount w)
    as (_ & _ & Hfound & Hthrow).
  destruct (gw_allowance gw t wallet s w) as [[v|e] w1] eqn:Hr.
  - apply (Hfound v w1 eq_refl).
    pose proof (@read_answers _ _ _ chain t s w v) as Hv.
    rewrite Hr in Hv. cbn [fst] in Hv. rewrite (Hv eq_refl). exact Hcov.
  - apply (Hthrow e w1 eq_refl).
Qed.

(** On such a chain, after a call that broadcast an approval, the next
    read answers with an allowance that covers every amount that fits a
    uint256. *)
Lemma settled_chain_reads_max (t s : address) (a1 a2 : Z) (w : World) :
  a2 <= Ethers.MaxUint256 ->
  approvals (events (approveToken gw wallet name t s a1 w)) = 1%nat ->
  forall v w1,
    gw_allowance gw t wallet s (world (approveToken gw wallet name t s a1 w))
    = (Ok v, w1) ->
    a2 <= v.
Proof.
  intros Hmax H1 v w1 Hr.
  pose proof (@read_answers _ _ _ chain t s
                (world (approveToken gw wallet name t s a1 w)) v) as Hv.
  rewrite Hr in Hv. cbn [fst] in Hv. rewrite (Hv eq_refl).
  now rewrite (approved_allowance_is_max t s a1 w H1).
Qed.

End ApproveTwice.




(** ** Reasoning about runs step by step *)

Section Runs.

Context {World : Type}.

Lemma outcome_bind {A B} (m : M World A) (k : A -> M World B) (w : World) :
  outcome (bind m k w)
  = match outcome (m w) with
    | Ok a => outcome (k a (world (m w)))
    | Throw e => Throw e
    end.
Proof. unfold bind. now destruct (outcome (m w)). Qed.

Lemma events_bind {A B} (m : M World A) (k : A -> M World B) (w : World) :
  events (bind m k w)
  = (events (m w)
     ++ match outcome (m w) with
        | Ok a => events (k a (world (m w)))
        | Throw _ => []
        end)%list.
Proof.
  unfold bind. destruct (outcome (m w)); cbn [events];
    [reflexivity|now rewrite app_nil_r].
Qed.

Lemma outcome_try_catch {A} (m : M World A) (h : JsError -> M World A)
      (w : World) :
  outcome (try_catch m h w)
  = match outcome (m w) with
    | Ok a => Ok a
    | Throw e => outcome (h e (world (m w)))
    end.
Proof. unfold try_catch. now destruct (outcome (m w)) eqn:E. Qed.

Lemma events_try_catch {A} (m : M World A) (h : JsError -> M World A)
      (w : World) :
  events (try_catch m h w)
  = (events (m w)
     ++ match outcome (m w) with
        | Ok _ => []
        | Throw e => events (h e (world (m w)))
        end)%list.
Proof.
  unfold try_catch. destruct (outcome (m w)); cbn [events];
    [now rewrite app_nil_r|reflexivity].
Qed.

Lemma bind_ok_run {A B} {m : M World A} (k : A -> M World B)
      {w w1 : World} {a : A} {ev : list Event} :
  m w = mkRun (Ok a) w1 ev ->
  bind m k w
  = mkRun (outcome (k a w1)) (world (k a w1)) (ev ++ events (k a w1)).
Proof. intros H. unfold bind. now rewrite H. Qed.

Lemma bind_throw_run {A B} {m : M World A} (k : A -> M World B)
      {w w1 : World} {e : JsError} {ev : list Event} :
  m w = mkRun (Throw e) w1 ev ->
  bind m k w = mkRun (Throw e) w1 ev.
Proof. intros H. unfold bind. now rewrite H. Qed.

Lemma try_ok_run {A} {m : M World A} (h : JsError -> M World A)
      {w w1 : World} {a : A} {ev : list Event} :
  m w = mkRun (Ok a) w1 ev -> try_catch m h w = mkRun (Ok a) w1 ev.
Proof. intros H. unfold try_catch. now rewrite H. Qed.

Lemma try_throw_run {A} {m : M World A} (h : JsError -> M World A)
      {w w1 : World} {e : JsError} {ev : list Event} :
  m w = mkRun (Throw e) w1 ev ->
  try_catch m h w
  = mkRun (outcome (h e w1)) (world (h e w1)) (ev ++ events (h e w1)).
Proof. intros H. unfold try_catch. now rewrite H. Qed.

Lemma call_run {A} {step : World -> Outcome A * World}
      (ev : Outcome A -> Event) {w w1 : World} {r : Outcome A} :
  step w = (r, w1) -> call step ev w = mkRun r w1 [ev r].
Proof. intros H. unfold call. now rewrite H. Qed.

Lemma run_eta {A} (r : Run World A) :
  r = mkRun (outcome r) (world r) (events r).
Proof. now destruct r. Qed.

Lemma quiet_bind {A B} (m : M World A) (k : A -> M World B) :
  quiet m -> (forall a, quiet (k a)) -> quiet (bind m k).
Proof.
  intros Hm Hk w. rewrite events_bind. apply Forall_app. split; [apply Hm|].
  destruct (outcome (m w)); [apply Hk|constructor].
Qed.

Lemma quiet_ret {A} (a : A) : quiet (ret (World := World) a).
Proof. intros w. constructor. Qed.

Lemma quiet_throw {A} (e : JsError) : quiet (throw (World := World) (A := A) e).
Proof. intros w. constructor. Qed.

Lemma quiet_logger (name text : string) : quiet (logger (World := World) name text).
Proof. intros w. repeat constructor. Qed.

Lemma quiet_lift_outcome {A} (o : Outcome A) :
  quiet (lift_outcome (World := World) o).
Proof. destruct o; [apply quiet_ret|apply quiet_throw]. Qed.

Lemma buffered_quiet (evs : list Event) :
  Forall before_submission evs -> buffered evs.
Proof.
  intros F txp ans Hin. rewrite Forall_forall in F.
  destruct (F _ Hin).
Qed.

Lemma buffered_app (l l' : list Event) :
  buffered l -> buffered l' -> buffered (l ++ l').
Proof.
  intros Hl Hl' txp ans Hin. apply in_app_or in Hin.
  destruct Hin as [Hin|Hin].
  - destruct (Hl _ _ Hin) as [sent Hs]. exists sent. apply in_or_app. auto.
  - destruct (Hl' _ _ Hin) as [sent Hs]. exists sent. apply in_or_app. auto.
Qed.

Lemma buffers_quiet {A} (m : M World A) : quiet m -> buffers m.
Proof. intros Hq w. apply buffered_quiet, Hq. Qed.

Lemma buffers_bind {A B} (m : M World A) (k : A -> M World B) :
  buffers m -> (forall a, buffers (k a)) -> buffers (bind m k).
Proof.
  intros Hm Hk w. rewrite events_bind. apply buffered_app; [apply Hm|].
  destruct (outcome (m w)); [apply Hk|apply buffered_quiet; constructor].
Qed.

Lemma buffers_try_catch {A} (m : M World A) (h : JsError -> M World A) :
  buffers m -> (forall e, buffers (h e)) -> buffers (try_catch m h).
Proof.
  intros Hm Hh w. rewrite events_try_catch. apply buffered_app; [apply Hm|].
  destruct (outcome (m w)); [apply buffered_quiet; constructor|apply Hh].
Qed.

End Runs.

(** ** Gas estimation and the send that follows (lines 124-131) *)

Section Gas.

Context {World : Type}.
Variable gw : Gateway World.
Variable wallet : address.
Variable name : string.

Lemma quiet_waitForTransaction (h : string) (c : Z) (n : nat) (d : Z) :
  quiet (waitForTransaction gw name h c n d).
Proof.
  intros w. unfold waitForTransaction.
  eapply Forall_impl; [|apply waitLoop_events].
  intros ev. destruct ev; cbn; auto.
Qed.

Lemma quiet_approveToken (t s : address) (amount : Z) :
  quiet (approveToken gw wallet name t s amount).
Proof.
  intros w. rewrite approveToken_run.
  destruct (gw_allowance gw t wallet s w) as [[v|e] w1].
  - destruct (v >=? amount); [repeat constructor|].
    destruct (gw_approve gw t s Ethers.MaxUint256 w1) as [[tx|e] w2];
      cbn [events]; [|repeat constructor].
    repeat (constructor; [exact I|]).
    apply Forall_app. split; [apply quiet_waitForTransaction|].
    repeat constructor.
  - repeat constructor.
Qed.

(** Estimate, fall back to 500000 when the estimate throws, multiply by
    12/10, send: whatever the estimate answered, the send that follows
    carries the chosen value times 12/10. *)
Lemma buffers_estimate_send {A} (txp : TxRequest) (line : string)
      (rest : string -> M World A) :
  (forall tx, buffers (rest tx)) ->
  buffers
    (bind
       (try_catch
          (call (gw_estimateGas gw txp) (EstimateGas txp))
          (fun e =>
             bind (logger name ("Gas estimation failed: " ++ message e))
                  (fun _ => ret 500000)))
       (fun estimatedGas =>
          bind (logger name line)
               (fun _ =>
                  bind (call (gw_sendTransaction gw
                                (set_gasLimit txp (estimatedGas * 12 ÷ 10)))
                             (Send (set_gasLimit txp (estimatedGas * 12 ÷ 10))))
                       rest))).
Proof.
  intros Hrest w txp' ans.
  destruct (gw_estimateGas gw txp w) as [[g|e] w1] eqn:G.
  - rewrite (bind_ok_run _ (try_ok_run _ (call_run (EstimateGas txp) G))).
    rewrite (bind_ok_run _ (m := logger name line) (w := w1) (a := tt) (ev := [Log _]) eq_refl).
    destruct (gw_sendTransaction gw (set_gasLimit txp (g * 12 ÷ 10)) w1)
      as [[tx|e] w2] eqn:S.
    + rewrite (bind_ok_run _ (call_run (Send _) S)).
      cbn [events app In].
      intros [H|[H|[H|H]]]; try discriminate.
      * inversion H; subst. eexists. right. right. left. reflexivity.
      * destruct (Hrest tx w2 _ _ H) as [sent Hs].
        exists sent. right. right. right. exact Hs.
    + rewrite (bind_throw_run _ (call_run (Send _) S)).
      cbn [events app In].
      intros [H|[H|[H|[]]]]; try discriminate.
      inversion H; subst. eexists. right. right. left. reflexivity.
  - assert (E : try_catch
                  (call (gw_estimateGas gw txp) (EstimateGas txp))
                  (fun e =>
                     bind (logger name ("Gas estimation failed: " ++ message e))
                          (fun _ => ret 500000)) w
                = mkRun (Ok 500000) w1
                    [EstimateGas txp (Throw e);
                     Log ("System | " ++ name ++ " | "
                          ++ ("Gas estimation failed: " ++ message e))]).
    { rewrite (try_throw_run _ (call_run (EstimateGas txp) G)). reflexivity. }
    rewrite (bind_ok_run _ E).
    rewrite (bind_ok_run _ (m := logger name line) (w := w1) (a := tt) (ev := [Log _]) eq_refl).
    destruct (gw_sendTransaction gw (set_gasLimit txp (500000 * 12 ÷ 10)) w1)
      as [[tx|e'] w2] eqn:S.
    + rewrite (bind_ok_run _ (call_run (Send _) S)).
      cbn [events app In].
      intros [H|[H|[H|[H|H]]]]; try discriminate.
      * inversion H; subst. eexists. right. right. right. left. reflexivity.
      * destruct (Hrest tx w2 _ _ H) as [sent Hs].
        exists sent. right. right. right. right. exact Hs.
    + rewrite (bind_throw_run _ (call_run (Send _) S)).
      cbn [events app In].
      intros [H|[H|[H|[H|[]]]]]; try discriminate.
      inversion H; subst. eexists. right. right. right. left. reflexivity.
Qed.

End Gas.

(** ** What a returned hash stands for *)

Section Confirmation.

Context {World : Type}.
Variable gw : Gateway World.
Variable contract : Contracts.
Variable wallet : address.
Variable name : string.
Variable enc : RouterCall -> Outcome string.

Lemma confirmed_in_incl (l l' : list Event) (h : string) :
  incl l l' -> confirmed_in gw l h -> confirmed_in gw l' h.
Proof.
  intros Hi ((tx & Hs) & rc & w' & Hp & Hst & Hg).
  split; [exists tx; auto|]. exists rc, w'. auto.
Qed.

Lemma hmc_bind {A} (m : M World A) (k : A -> M World (option string)) :
  (forall a, hash_means_confirmed gw (k a)) -> hash_means_confirmed gw (bind m k).
Proof.
  intros Hk w h. rewrite outcome_bind, events_bind.
  destruct (outcome (m w)) as [a|e]; [|discriminate].
  intros H. apply (confirmed_in_incl (events (k a (world (m w))))).
  - apply incl_appr, incl_refl.
  - now apply Hk.
Qed.

Lemma hmc_try_catch (m : M World (option string))
      (handler : JsError -> M World (option string)) :
  hash_means_confirmed gw m -> (forall e, hash_means_confirmed gw (handler e)) ->
  hash_means_confirmed gw (try_catch m handler).
Proof.
  intros Hm Hh w h. rewrite outcome_try_catch, events_try_catch.
  destruct (outcome (m w)) as [a|e] eqn:E.
  - intros H. rewrite app_nil_r. apply Hm. congruence.
  - intros H. apply (confirmed_in_incl (events (handler e (world (m w))))).
    + apply incl_appr, incl_refl.
    + now apply Hh.
Qed.

Lemma hmc_log_null (line : string) :
  hash_means_confirmed gw (bind (logger name line) (fun _ => ret None)).
Proof. intros w h. discriminate. Qed.

Lemma hmc_throw (e : JsError) : hash_means_confirmed gw (throw e).
Proof. intros w h. discriminate. Qed.

(** Lines 131-142: send, then report the hash only if the confirmation
    loop returned a receipt. *)
Lemma hmc_send_confirm (txp : TxRequest) :
  hash_means_confirmed gw
    (bind (call (gw_sendTransaction gw txp) (Send txp))
       (fun tx =>
          bind (logger name ("Transaction sent: " ++ tx))
            (fun _ =>
               bind (waitForTransaction gw name tx 1 5 5000)
                 (fun receipt =>
                    match receipt with
                    | Some _ =>
                        bind (logger name ("Liquidity added successfully: " ++ tx))
                             (fun _ => ret (Some tx))
                    | None =>
                        bind (logger name
                                ("Failed to confirm liquidity transaction: " ++ tx))
                             (fun _ => ret None)
                    end)))).
Proof.
  intros w h.
  destruct (gw_sendTransaction gw txp w) as [[tx|e] w1] eqn:S.
  - rewrite (bind_ok_run _ (call_run (Send txp) S)).
    rewrite (bind_ok_run _ (m := logger name ("Transaction sent: " ++ tx))
               (w := w1) (a := tt) (ev := [Log _]) eq_refl).
    destruct (waitForTransaction_returns gw name tx 1 5 5000 w1) as (res & Ho).
    pose proof (run_eta (waitForTransaction gw name tx 1 5 5000 w1)) as Eta.
    rewrite Ho in Eta. rewrite (bind_ok_run _ Eta).
    destruct res as [rc|]; cbn [outcome events]; [|discriminate].
    intros H. inversion H; subst h.
    destruct (waitLoop_receipt gw name tx 1 5 5000 rc 5 1 w1 Ho)
      as (Hst & Hin & w' & Hg).
    cbn [app]. split.
    + exists txp. left. reflexivity.
    + exists rc, w'. split; [|auto].
      right. right. apply in_or_app. left. exact Hin.
  - rewrite (bind_throw_run _ (call_run (Send txp) S)). discriminate.
Qed.

Lemma hmc_submitLiquidity (p : Plan) (tokenA tokenB amountA amountB : string) :
  hash_means_confirmed gw
    (submitLiquidity gw contract wallet name enc p tokenA tokenB amountA amountB).
Proof.
  unfold submitLiquidity.
  do 6 (apply hmc_bind; intros ?).
  apply hmc_send_confirm.
Qed.

Lemma hmc_addLiquidity (tokenA tokenB amountA amountB : string) :
  hash_means_confirmed gw
    (addLiquidity gw contract wallet name enc tokenA tokenB amountA amountB).
Proof.
  unfold addLiquidity.
  apply hmc_try_catch; [|intros e; apply hmc_log_null].
  destruct (prepare contract tokenA tokenB amountA amountB) as [| |p].
  - apply hmc_log_null.
  - apply hmc_throw.
  - apply hmc_bind; intros approvedA. apply hmc_bind; intros approvedB.
    destruct (negb approvedA || negb approvedB).
    + apply hmc_log_null.
    + apply hmc_submitLiquidity.
Qed.

(** No failure leaves addLiquidity: it returns a hash or null. *)
Lemma addLiquidity_returns (tokenA tokenB amountA amountB : string) (w : World) :
  exists res,
    outcome (addLiquidity gw contract wallet name enc
               tokenA tokenB amountA amountB w) = Ok res.
Proof.
  unfold addLiquidity. rewrite outcome_try_catch.
  match goal with
  | |- context [outcome (?body w)] => destruct (outcome (body w)) as [res|e]
  end.
  - exists res. reflexivity.
  - exists None. reflexivity.
Qed.

Lemma buffers_submitLiquidity (p : Plan) (tokenA tokenB amountA amountB : string) :
  buffers
    (submitLiquidity gw contract wallet name enc p tokenA tokenB amountA amountB).
Proof.
  unfold submitLiquidity.
  apply buffers_bind; [apply buffers_quiet; intros w; constructor|intros now].
  do 3 (apply buffers_bind;
        [apply buffers_quiet, quiet_lift_outcome|intros ?]).
  apply buffers_estimate_send. intros tx.
  apply buffers_quiet.
  apply quiet_bind; [apply quiet_logger|intros _].
  apply quiet_bind; [apply quiet_waitForTransaction|intros receipt].
  destruct receipt;
    (apply quiet_bind; [apply quiet_logger|intros _; apply quiet_ret]).
Qed.

Lemma buffers_addLiquidity (tokenA tokenB amountA amountB : string) :
  buffers
    (addLiquidity gw contract wallet name enc tokenA tokenB amountA amountB).
Proof.
  unfold addLiquidity.
  apply buffers_try_catch.
  - destruct (prepare contract tokenA tokenB amountA amountB) as [| |p].
    + apply buffers_quiet.
      apply quiet_bind; [apply quiet_logger|intros _; apply quiet_ret].
    + apply buffers_quiet, quiet_throw.
    + apply buffers_bind;
        [apply buffers_quiet, quiet_approveToken|intros approvedA].
      apply buffers_bind;
        [apply buffers_quiet, quiet_approveToken|intros approvedB].
      destruct (negb approvedA || negb approvedB).
      * apply buffers_quiet.
        apply quiet_bind; [apply quiet_logger|intros _; apply quiet_ret].
      * apply buffers_submitLiquidity.
  - intros e. apply buffers_quiet.
    apply quiet_bind; [apply quiet_logger|intros _; apply quiet_ret].
Qed.

End Confirmation.

(** C4. addLiquidity returns a hash or null and never throws. When it
    returns a hash, that hash was sent in the same run and a receipt with
    status 1, answered by the provider for that hash, was polled in it. A
    hash whose receipts all have a status other than 1 is never the
    result. *)
Theorem hash_only_after_successful_receipt
        (World : Type) (gw : Gateway World) (contract : Contracts)
        (wallet : address) (name : string) (enc : RouterCall -> Outcome string)
        (tokenA tokenB amountA amountB : string) (w : World) :
  (exists res,
      outcome (addLiquidity gw contract wallet name enc
                 tokenA tokenB amountA amountB w) = Ok res) /\
  (forall h,
      outcome (addLiquidity gw contract wallet name enc
                 tokenA tokenB amountA amountB w) = Ok (Some h) ->
      confirmed_in gw
        (events (addLiquidity gw contract wallet name enc
                   tokenA tokenB amountA amountB w)) h) /\
  (forall h,
      (forall w' rc,
          fst (gw_waitForTransaction gw h 1 60000 w') = Ok (Some rc) ->
          status rc <> Some 1) ->
      outcome (addLiquidity gw contract wallet name enc
                 tokenA tokenB amountA amountB w) <> Ok (Some h)).
Proof.
  split; [apply addLiquidity_returns|]. split.
  - intros h. apply hmc_addLiquidity.
  - intros h Hnever Ho.
    destruct (hmc_addLiquidity gw contract wallet name enc
                tokenA tokenB amountA amountB w h Ho)
      as (_ & rc & w' & _ & Hst & Hg).
    destruct (Hnever w' rc Hg Hst).
Qed.

(** A reverted liquidity transaction is reported as null. *)
Example reverted_liquidity_is_null :
  let w := Sim.grant (Sim.grant
                        (Sim.with_polls Sim.fresh
                           [Ok (Some (Sim.reverted Sim.hashL))])
                        (WPHRS pharos) (ROUTER pharos) Ethers.MaxUint256)
             (USDT pharos) (ROUTER pharos) Ethers.MaxUint256 in
  let r := Sim.addLiquidity true "PHRS" "USDT" "1.5" "3.0" w in
  outcome r = Ok None /\ polls (events r) = 1%nat /\ sleeps (events r) = 0%nat.
Proof. vm_compute. auto. Qed.

(** C9. Whatever gas estimation answers for the batched call, the flow goes
    on to send that request with the gas limit set to the chosen value
    times 12/10 in integer arithmetic, where the chosen value is the
    estimate, or 500000 when estimation threw; in that case the limit is
    600000. *)
Theorem gas_limit_is_padded
        (World : Type) (gw : Gateway World) (contract : Contracts)
        (wallet : address) (name : string) (enc : RouterCall -> Outcome string)
        (tokenA tokenB amountA amountB : string) (w : World)
        (txp : TxRequest) (ans : Outcome Z) :
  In (EstimateGas txp ans)
     (events (addLiquidity gw contract wallet name enc
                tokenA tokenB amountA amountB w)) ->
  (exists sent,
      In (Send (set_gasLimit txp (chosen_gas ans * 12 ÷ 10)) sent)
         (events (addLiquidity gw contract wallet name enc
                    tokenA tokenB amountA amountB w))) /\
  gasLimit (set_gasLimit txp (chosen_gas ans * 12 ÷ 10))
  = chosen_gas ans * 12 ÷ 10 /\
  (forall e, ans = Throw e -> chosen_gas ans * 12 ÷ 10 = 600000).
Proof.
  intros Hin. split; [|split].
  - apply (buffers_addLiquidity gw contract wallet name enc
             tokenA tokenB amountA amountB w txp ans Hin).
  - reflexivity.
  - intros e ->. reflexivity.
Qed.

Lemma gas_limit_is_padded_witness :
  (exists sent,
      In (Send (set_gasLimit Sim.request 600000) sent)
         (events (Sim.addLiquidity true "PHRS" "USDT" "1.5" "3.0"
                    (Sim.with_estimate Sim.fresh (Throw Sim.err_estimate))))) /\
  gasLimit (set_gasLimit Sim.request 600000) = 600000 /\
  (forall e, Throw (A := Z) Sim.err_estimate = Throw e ->
             chosen_gas (Throw Sim.err_estimate) * 12 ÷ 10 = 600000).
Proof.
  apply (gas_limit_is_padded Sim.World (Sim.gateway true) pharos Sim.wallet
           "Wallet-1" Sim.encode "PHRS" "USDT" "1.5" "3.0"
           (Sim.with_estimate Sim.fresh (Throw Sim.err_estimate))
           Sim.request (Throw Sim.err_estimate)).
  vm_compute. repeat first [left; reflexivity | right].
Defined.

(** * Further properties of the service *)

(** ** Which symbols resolve, and to what *)

Lemma tokenMap_some (c : Contracts) (key : string) (a : address) :
  tokenMap c key = Some a <->
  (key = "PHRS" /\ a = WPHRS c) \/ (key = "USDT" /\ a = USDT c)
  \/ (key = "USDC" /\ a = USDC c).
Proof.
  unfold tokenMap.
  destruct (String.eqb_spec key "PHRS") as [->|N1].
  - split.
    + intros H; inversion H; auto.
    + intros [[_ ->]|[[H _]|[H _]]]; try discriminate; reflexivity.
  - destruct (String.eqb_spec key "USDT") as [->|N2].
    + split.
      * intros H; inversion H; auto.
      * intros [[H _]|[[_ ->]|[H _]]]; try discriminate; reflexivity.
    + destruct (String.eqb_spec key "USDC") as [->|N3].
      * split.
        -- intros H; inversion H; auto.
        -- intros [[H _]|[[H _]|[_ ->]]]; try discriminate; reflexivity.
      * split; [discriminate|].
        intros [[H _]|[[H _]|[H _]]]; contradiction.
Qed.

(** X1. A symbol resolves exactly when its upper-cased form is one of PHRS,
    USDT and USDC and the table holds a non-empty address for it; it then
    resolves to that address and to nothing else. *)
Theorem resolve_only_table_tokens (c : Contracts) (s : string) (a : address) :
  resolve c s = Some a <->
  a <> "" /\
  ((Js.toUpperCase s = "PHRS" /\ a = WPHRS c)
   \/ (Js.toUpperCase s = "USDT" /\ a = USDT c)
   \/ (Js.toUpperCase s = "USDC" /\ a = USDC c)).
Proof.
  rewrite resolve_some, tokenMap_some, String.eqb_neq. tauto.
Qed.

Lemma resolve_in_table (c : Contracts) (s : string) (a : address) :
  resolve c s = Some a -> In a [WPHRS c; USDT c; USDC c].
Proof.
  intros H. apply resolve_some in H. destruct H as [H _].
  apply tokenMap_some in H. cbn [In].
  destruct H as [[_ ->]|[[_ ->]|[_ ->]]]; auto.
Qed.

Lemma resolve_none (c : Contracts) (s : string) :
  resolve c s = None <-> falsy (tokenMap c (Js.toUpperCase s)) = true.
Proof.
  unfold resolve, falsy.
  destruct (tokenMap c (Js.toUpperCase s)) as [a|]; [|tauto].
  destruct (String.eqb a ""); split; congruence.
Qed.

Lemma prepare_invalid (c : Contracts) (tokenA tokenB amountA amountB : string) :
  resolve c tokenA = None \/ resolve c tokenB = None ->
  prepare c tokenA tokenB amountA amountB = InvalidPair.
Proof.
  rewrite !resolve_none. intros H. unfold prepare.
  destruct (falsy (tokenMap c (Js.toUpperCase tokenA)));
    destruct (falsy (tokenMap c (Js.toUpperCase tokenB)));
    try reflexivity.
  destruct H; discriminate.
Qed.

Lemma prepare_parse_throws
      (c : Contracts) (tokenA tokenB amountA amountB : string) (a b : address) :
  resolve c tokenA = Some a -> resolve c tokenB = Some b ->
  Ethers.parseEther amountA = None \/ Ethers.parseEther amountB = None ->
  prepare c tokenA tokenB amountA amountB = ParseThrows.
Proof.
  intros Ha Hb Hp.
  apply resolve_some in Ha. destruct Ha as [Ha Ha'].
  apply resolve_some in Hb. destruct Hb as [Hb Hb'].
  unfold prepare. rewrite Ha, Hb. cbn [falsy]. rewrite Ha', Hb'. cbn [orb].
  destruct (String.eqb a (token0_of a b));
    destruct (Ethers.parseEther amountA), (Ethers.parseEther amountB);
    try reflexivity; destruct Hp; discriminate.
Qed.

(** X2. A symbol that does not resolve stops addLiquidity at line 77: the
    result is null, the only event is the invalid-pair line, the chain is
    not contacted and the world is as before. *)
Theorem unknown_symbol_is_refused
        (World : Type) (gw : Gateway World) (c : Contracts) (wallet : address)
        (name : string) (enc : RouterCall -> Outcome string)
        (tokenA tokenB amountA amountB : string) (w : World) :
  resolve c tokenA = None \/ resolve c tokenB = None ->
  addLiquidity gw c wallet name enc tokenA tokenB amountA amountB w
  = mkRun (Ok None) w
      [Log ("System | " ++ name ++ " | "
            ++ ("Invalid token pair: " ++ tokenA ++ "-" ++ tokenB))].
Proof.
  intros H. unfold addLiquidity.
  rewrite (prepare_invalid c tokenA tokenB amountA amountB H).
  reflexivity.
Qed.

Lemma unknown_symbol_is_refused_witness :
  Sim.addLiquidity true "DOGE" "USDT" "1.5" "3.0" Sim.fresh
  = mkRun (Ok None) Sim.fresh
      [Log "System | Wallet-1 | Invalid token pair: DOGE-USDT"].
Proof.
  apply (unknown_symbol_is_refused Sim.World (Sim.gateway true) pharos
           Sim.wallet "Wallet-1" Sim.encode "DOGE" "USDT" "1.5" "3.0" Sim.fresh).
  left. reflexivity.
Defined.

(** X3. An amount that parseEther rejects stops addLiquidity at lines 85-86:
    the result is null, one line is logged by the catch block of line 143,
    the chain is not contacted and the world is as before. *)
Theorem rejected_amount_is_refused
        (World : Type) (gw : Gateway World) (c : Contracts) (wallet : address)
        (name : string) (enc : RouterCall -> Outcome string)
        (tokenA tokenB amountA amountB : string) (a b : address) (w : World) :
  resolve c tokenA = Some a -> resolve c tokenB = Some b ->
  Ethers.parseEther amountA = None \/ Ethers.parseEther amountB = None ->
  exists line,
    addLiquidity gw c wallet name enc tokenA tokenB amountA amountB w
    = mkRun (Ok None) w [Log line] /\
    prefix ("System | " ++ name ++ " | Error adding liquidity: ") line = true.
Proof.
  intros Ha Hb Hp. unfold addLiquidity.
  rewrite (prepare_parse_throws c tokenA tokenB amountA amountB a b Ha Hb Hp).
  eexists. split; [reflexivity|].
  induction name as [|ch r IH]; [reflexivity|].
  cbn in IH |- *. destruct (ascii_dec ch ch); [exact IH|contradiction].
Qed.

Lemma rejected_amount_is_refused_witness :
  exists line,
    Sim.addLiquidity true "PHRS" "USDT" "1,5" "3.0" Sim.fresh
    = mkRun (Ok None) Sim.fresh [Log line] /\
    prefix "System | Wallet-1 | Error adding liquidity: " line = true.
Proof.
  apply (rejected_amount_is_refused Sim.World (Sim.gateway true) pharos
           Sim.wallet "Wallet-1" Sim.encode "PHRS" "USDT" "1,5" "3.0"
           (WPHRS pharos) (USDT pharos) Sim.fresh).
  - reflexivity.
  - reflexivity.
  - left. reflexivity.
Defined.

(** ** Amounts, approvals and the native value *)

(** When tokenA's address is not above tokenB's, the plan keeps the
    caller's order: token0 is tokenA's address, and each desired amount is
    the one the caller gave for that token. *)
Lemma plan_amounts_straight
        (c : Contracts) (tokenA tokenB amountA amountB : string) (p : Plan) :
  prepare c tokenA tokenB amountA amountB = Ready p ->
  Js.lt (tokenBAddress p) (tokenAAddress p) = false ->
  token0 p = tokenAAddress p /\ token1 p = tokenBAddress p /\
  Ethers.parseEther amountA = Some (amount0Desired p) /\
  Ethers.parseEther amountB = Some (amount1Desired p).
Proof.
  intros H Hlt.
  destruct (prepare_ready_inv _ _ _ _ _ _ H) as (va & vb & _ & _ & Pa & Pb & Hp).
  set (a := tokenAAddress p) in *. set (b := tokenBAddress p) in *.
  assert (T : a_is_token0 a b = true).
  { destruct (Js.lt a b) eqn:Hab; [now apply a_is_token0_lt|].
    rewrite (lt_total _ _ Hab Hlt). apply a_is_token0_same. }
  rewrite T in Hp. rewrite Hp.
  cbn [token0 token1 amount0Desired amount1Desired].
  unfold token0_of, token1_of.
  destruct (Js.lt a b) eqn:Hab; [auto|].
  rewrite (lt_total _ _ Hab Hlt). auto.
Qed.

(** X5. The value attached at line 120 is the amount the caller gave for the
    token that resolves to the wrapped native token, whichever canonical
    slot that token took, and zero when neither token does. *)
Theorem native_value_follows_phrs
        (c : Contracts) (tokenA tokenB amountA amountB : string) (p : Plan)
        (va vb : Z) :
  prepare c tokenA tokenB amountA amountB = Ready p ->
  Ethers.parseEther amountA = Some va ->
  Ethers.parseEther amountB = Some vb ->
  (tokenAAddress p = WPHRS c -> nativeValue c p = va) /\
  (tokenAAddress p <> WPHRS c -> tokenBAddress p = WPHRS c ->
   nativeValue c p = vb) /\
  (tokenAAddress p <> WPHRS c -> tokenBAddress p <> WPHRS c ->
   nativeValue c p = 0).
Proof.
  intros H Pa Pb.
  destruct (prepare_ready_inv _ _ _ _ _ _ H)
    as (va' & vb' & _ & _ & Pa' & Pb' & Hp).
  assert (va' = va) by congruence. assert (vb' = vb) by congruence. subst va' vb'.
  destruct p as [a b t0 t1 a0 a1].
  cbn [tokenAAddress tokenBAddress] in *.
  inversion Hp as [[E0 E1 E2 E3]]. clear Hp E0 E1 E2 E3 H Pa Pb Pa' Pb'.
  unfold nativeValue.
  cbn [token0 token1 amount0Desired amount1Desired].
  unfold a_is_token0, token0_of, token1_of.
  destruct (Js.lt a b) eqn:Hab.
  - rewrite String.eqb_refl.
    split; [|split].
    + intros Ha. rewrite Ha. now rewrite String.eqb_refl.
    + intros Na Hb. apply String.eqb_neq in Na. rewrite Na, Hb.
      now rewrite String.eqb_refl.
    + intros Na Nb. apply String.eqb_neq in Na, Nb. now rewrite Na, Nb.
  - destruct (String.eqb_spec a b) as [Eab|Nab].
    + rewrite <- Eab. split; [|split].
      * intros Ha. rewrite Ha. now rewrite String.eqb_refl.
      * intros Na Hb. congruence.
      * intros Na _. apply String.eqb_neq in Na. now rewrite Na.
    + split; [|split].
      * intros Ha. rewrite <- Ha.
        assert (Nba : String.eqb b a = false)
          by (apply String.eqb_neq; congruence).
        rewrite Nba. now rewrite String.eqb_refl.
      * intros _ Hb. rewrite Hb. now rewrite String.eqb_refl.
      * intros Na Nb. apply String.eqb_neq in Na, Nb. now rewrite Nb, Na.
Qed.

Lemma native_value_follows_phrs_witness :
  let p := mkPlan (USDT pharos) (WPHRS pharos) (WPHRS pharos) (USDT pharos)
             (15 * 10 ^ 17) (3 * 10 ^ 18) in
  (tokenAAddress p = WPHRS pharos -> nativeValue pharos p = 3 * 10 ^ 18) /\
  (tokenAAddress p <> WPHRS pharos -> tokenBAddress p = WPHRS pharos ->
   nativeValue pharos p = 15 * 10 ^ 17) /\
  (tokenAAddress p <> WPHRS pharos -> tokenBAddress p <> WPHRS pharos ->
   nativeValue pharos p = 0).
Proof.
  exact (native_value_follows_phrs pharos "USDT" "PHRS" "3.0" "1.5"
           (mkPlan (USDT pharos) (WPHRS pharos) (WPHRS pharos) (USDT pharos)
              (15 * 10 ^ 17) (3 * 10 ^ 18))
           (3 * 10 ^ 18) (15 * 10 ^ 17) eq_refl eq_refl eq_refl).
Defined.

(** ** What a run may contain *)

Lemma prefix_app (a b : string) : prefix a (a ++ b) = true.
Proof.
  induction a as [|ch r IH]; cbn [append prefix].
  - now destruct b.
  - destruct (ascii_dec ch ch); [exact IH|contradiction].
Qed.

Lemma log_head_prefix (name text : string) :
  prefix (log_head name) ("System | " ++ name ++ " | " ++ text) = true.
Proof.
  unfold log_head.
  replace ("System | " ++ name ++ " | " ++ text)
    with (("System | " ++ name ++ " | ") ++ text).
  - apply prefix_app.
  - cbn [append]. do 9 f_equal.
    induction name as [|ch r IH]; cbn [append]; [reflexivity|now rewrite IH].
Qed.

Section Always.

Context {World : Type}.
Variable P : Event -> Prop.

Lemma always_bind {A B} (m : M World A) (k : A -> M World B) :
  always P m -> (forall a, always P (k a)) -> always P (bind m k).
Proof.
  intros Hm Hk w. rewrite events_bind. apply Forall_app. split; [apply Hm|].
  destruct (outcome (m w)); [apply Hk|constructor].
Qed.

Lemma always_try_catch {A} (m : M World A) (h : JsError -> M World A) :
  always P m -> (forall e, always P (h e)) -> always P (try_catch m h).
Proof.
  intros Hm Hh w. rewrite events_try_catch. apply Forall_app.
  split; [apply Hm|].
  destruct (outcome (m w)); [constructor|apply Hh].
Qed.

Lemma always_ret {A} (a : A) : always P (ret (World := World) a).
Proof. intros w. constructor. Qed.

Lemma always_throw {A} (e : JsError) :
  always P (throw (World := World) (A := A) e).
Proof. intros w. constructor. Qed.

Lemma always_lift_outcome {A} (o : Outcome A) :
  always P (lift_outcome (World := World) o).
Proof. destruct o; [apply always_ret|apply always_throw]. Qed.

Lemma always_emit (ev : Event) : P ev -> always P (emit (World := World) ev).
Proof. intros H w. repeat constructor. exact H. Qed.

Lemma always_call {A} (step : World -> Outcome A * World)
      (ev : Outcome A -> Event) :
  (forall r, P (ev r)) -> always P (call step ev).
Proof.
  intros H w. unfold call. destruct (step w) as [r w'].
  repeat constructor. apply H.
Qed.

Lemma always_logger (name text : string) :
  (forall line, prefix (log_head name) line = true -> P (Log line)) ->
  always P (logger (World := World) name text).
Proof.
  intros H. apply always_emit. apply H. apply log_head_prefix.
Qed.

Lemma always_log_return {A} (name text : string) (a : A) :
  (forall line, prefix (log_head name) line = true -> P (Log line)) ->
  always P (bind (logger (World := World) name text) (fun _ => ret a)).
Proof.
  intros H. apply always_bind; [now apply always_logger|].
  intros _. apply always_ret.
Qed.

Variable gw : Gateway World.
Variable name : string.

Hypothesis P_log :
  forall line, prefix (log_head name) line = true -> P (Log line).

Lemma always_waitLoop (h : string) (c : Z) (retries : nat) (d : Z) :
  (forall r, P (Poll h c 60000 r)) -> P (Sleep d) ->
  forall fuel attempt,
    always P (waitLoop gw name fuel h c retries d attempt).
Proof.
  intros Hpoll Hsleep.
  induction fuel as [|fuel IH]; intros attempt.
  - apply always_ret.
  - cbn [waitLoop]. apply always_bind.
    + apply always_try_catch.
      * apply always_bind; [now apply always_call|].
        intros receipt. destruct (succeeded receipt);
          [apply always_ret|apply always_throw].
      * intros e. destruct (transient e).
        -- apply always_bind; [now apply always_logger|]. intros _.
           destruct (attempt =? retries)%nat.
           ++ now apply always_log_return.
           ++ apply always_bind; [now apply always_emit|]. intros _ w.
              constructor.
        -- now apply always_log_return.
    + intros [r|]; [apply always_ret|apply IH].
Qed.

Lemma always_waitForTransaction (h : string) (c : Z) (retries : nat) (d : Z) :
  (forall r, P (Poll h c 60000 r)) -> P (Sleep d) ->
  always P (waitForTransaction gw name h c retries d).
Proof. intros Hp Hs. now apply always_waitLoop. Qed.

Lemma always_approveToken (wallet t s : address) (amount : Z) :
  (forall r, P (Allowance t wallet s r)) ->
  (forall r, P (Approve t s Ethers.MaxUint256 r)) ->
  (forall tx r, P (Poll tx 1 60000 r)) -> P (Sleep 5000) ->
  always P (approveToken gw wallet name t s amount).
Proof.
  intros Hr Ha Hp Hs. unfold approveToken.
  apply always_try_catch.
  - apply always_bind; [now apply always_call|]. intros allowance.
    destruct (allowance >=? amount).
    + now apply always_log_return.
    + apply always_bind; [now apply always_logger|]. intros _.
      apply always_bind; [now apply always_call|]. intros tx.
      apply always_bind; [now apply always_waitForTransaction|]. intros _.
      now apply always_log_return.
  - intros e. now apply always_log_return.
Qed.

End Always.

(** ** Counting the calls of a run *)

Lemma count_events_app (f : Event -> bool) (l l' : list Event) :
  count_events f (l ++ l')
  = (count_events f l + count_events f l')%nat.
Proof. unfold count_events. now rewrite filter_app, length_app. Qed.

Section AtMost.

Context {World : Type}.
Variable f : Event -> bool.

Lemma at_most_le {A} (n n' : nat) (m : M World A) :
  (n <= n')%nat -> at_most f n m -> at_most f n' m.
Proof. intros Hle H w. specialize (H w). lia. Qed.

Lemma at_most_bind {A B} (n n' : nat) (m : M World A) (k : A -> M World B) :
  at_most f n m -> (forall a, at_most f n' (k a)) ->
  at_most f (n + n') (bind m k).
Proof.
  intros Hm Hk w. rewrite events_bind, count_events_app.
  specialize (Hm w).
  destruct (outcome (m w)) as [a|e].
  - specialize (Hk a (world (m w))). lia.
  - cbn. lia.
Qed.

Lemma at_most_try_catch {A} (n : nat) (m : M World A)
      (h : JsError -> M World A) :
  at_most f n m -> (forall e, at_most f 0 (h e)) ->
  at_most f n (try_catch m h).
Proof.
  intros Hm Hh w. rewrite events_try_catch, count_events_app.
  specialize (Hm w).
  destruct (outcome (m w)) as [a|e].
  - cbn. lia.
  - specialize (Hh e (world (m w))). lia.
Qed.

Lemma at_most_ret {A} (a : A) : at_most f 0 (ret (World := World) a).
Proof. intros w. cbn. lia. Qed.

Lemma at_most_throw {A} (e : JsError) :
  at_most f 0 (throw (World := World) (A := A) e).
Proof. intros w. cbn. lia. Qed.

Lemma at_most_lift_outcome {A} (o : Outcome A) :
  at_most f 0 (lift_outcome (World := World) o).
Proof. destruct o; [apply at_most_ret|apply at_most_throw]. Qed.

Lemma at_most_call {A} (n : nat) (step : World -> Outcome A * World)
      (ev : Outcome A -> Event) :
  (forall r, f (ev r) = true -> (1 <= n)%nat) -> at_most f n (call step ev).
Proof.
  intros H w. unfold call. destruct (step w) as [r w'].
  unfold count_events. cbn [events filter].
  destruct (f (ev r)) eqn:E; cbn [List.length]; [now apply (H r)|lia].
Qed.

Hypothesis f_log : forall line, f (Log line) = false.

Lemma at_most_logger (name text : string) :
  at_most f 0 (logger (World := World) name text).
Proof.
  intros w. unfold count_events. cbn [logger emit events filter].
  rewrite f_log. cbn. lia.
Qed.

Lemma at_most_log_return {A} (name text : string) (a : A) :
  at_most f 0 (bind (logger (World := World) name text) (fun _ => ret a)).
Proof.
  change 0%nat with (0 + 0)%nat.
  apply at_most_bind; [apply at_most_logger|intros _; apply at_most_ret].
Qed.

Variable gw : Gateway World.
Variable contract : Contracts.
Variable wallet : address.
Variable name : string.
Variable enc : RouterCall -> Outcome string.

(** The bounds of the three kinds of step: reading and approving in
    approveToken, estimating and sending in submitLiquidity, and one
    confirmation loop. *)
Variables n_read n_approve n_estimate n_send n_wait : nat.

Hypothesis f_read :
  forall t o s r, f (Allowance t o s r) = true -> (1 <= n_read)%nat.
Hypothesis f_approve :
  forall t s v r, f (Approve t s v r) = true -> (1 <= n_approve)%nat.
Hypothesis f_estimate :
  forall tx r, f (EstimateGas tx r) = true -> (1 <= n_estimate)%nat.
Hypothesis f_send :
  forall tx r, f (Send tx r) = true -> (1 <= n_send)%nat.
Hypothesis f_wait :
  forall tx, at_most f n_wait (waitForTransaction gw name tx 1 5 5000).

Lemma at_most_approveToken (t s : address) (amount : Z) :
  at_most f (n_read + (n_approve + n_wait))
    (approveToken gw wallet name t s amount).
Proof.
  unfold approveToken. apply at_most_try_catch.
  - apply at_most_bind; [apply at_most_call; intros r; apply f_read|].
    intros allowance. destruct (allowance >=? amount).
    + apply (at_most_le 0); [lia|apply at_most_log_return].
    + apply (at_most_bind 0); [apply at_most_logger|]. intros _.
      apply at_most_bind; [apply at_most_call; intros r; apply f_approve|].
      intros tx.
      replace n_wait with (n_wait + 0)%nat by lia.
      apply at_most_bind; [apply f_wait|]. intros _.
      apply at_most_log_return.
  - intros e. apply at_most_log_return.
Qed.

Lemma at_most_submitLiquidity (p : Plan) (tokenA tokenB amountA amountB : string) :
  at_most f (n_estimate + (n_send + n_wait))
    (submitLiquidity gw contract wallet name enc p tokenA tokenB amountA amountB).
Proof.
  unfold submitLiquidity.
  apply (at_most_bind 0); [intros w; cbn; lia|]. intros now.
  do 3 (apply (at_most_bind 0); [apply at_most_lift_outcome|]; intros ?).
  apply at_most_bind.
  - apply at_most_try_catch.
    + apply at_most_call. intros r. apply f_estimate.
    + intros e. apply at_most_log_return.
  - intros estimatedGas.
    apply (at_most_bind 0); [apply at_most_logger|]. intros _.
    apply at_most_bind; [apply at_most_call; intros r; apply f_send|].
    intros tx.
    apply (at_most_bind 0); [apply at_most_logger|]. intros _.
    replace n_wait with (n_wait + 0)%nat by lia.
    apply at_most_bind; [apply f_wait|].
    intros [rc|]; apply at_most_log_return.
Qed.

Lemma at_most_addLiquidity (tokenA tokenB amountA amountB : string) :
  at_most f
    ((n_read + (n_approve + n_wait))
     + ((n_read + (n_approve + n_wait)) + (n_estimate + (n_send + n_wait))))
    (addLiquidity gw contract wallet name enc tokenA tokenB amountA amountB).
Proof.
  unfold addLiquidity. apply at_most_try_catch.
  - destruct (prepare contract tokenA tokenB amountA amountB) as [| |p].
    + apply (at_most_le 0); [lia|apply at_most_log_return].
    + apply (at_most_le 0); [lia|apply at_most_throw].
    + apply at_most_bind; [apply at_most_approveToken|]. intros approvedA.
      apply at_most_bind; [apply at_most_approveToken|]. intros approvedB.
      destruct (negb approvedA || negb approvedB).
      * apply (at_most_le 0); [lia|apply at_most_log_return].
      * apply at_most_submitLiquidity.
  - intros e. apply at_most_log_return.
Qed.

End AtMost.

Lemma count_zero (f : Event -> bool) (evs : list Event) :
  Forall (fun ev => f ev = false) evs -> count_events f evs = 0%nat.
Proof.
  unfold count_events. induction 1 as [|ev l H _ IH]; [reflexivity|].
  cbn [filter]. now rewrite H.
Qed.

Lemma waitForTransaction_counts {World : Type} (gw : Gateway World)
      (name h : string) (c : Z) (retries : nat) (d : Z) (w : World) :
  (polls (events (waitForTransaction gw name h c retries d w)) <= retries)%nat /\
  sleeps (events (waitForTransaction gw name h c retries d w))
  = pred (polls (events (waitForTransaction gw name h c retries d w))).
Proof.
  unfold waitForTransaction.
  destruct (waitLoop_tracked gw name h c retries d retries 1 w eq_refl)
    as (res & _ & Ht & Hs).
  split; [|exact Hs].
  rewrite polls_answers. apply (Tracked_bounds _ _ _ _ Ht).
Qed.

Lemma paced_waitForTransaction {World : Type} (gw : Gateway World)
      (name h : string) (c : Z) (retries : nat) (d : Z) :
  always (paced_event name h c d) (waitForTransaction gw name h c retries d).
Proof.
  apply always_waitForTransaction.
  - intros line H. exact H.
  - intros r. cbn. auto.
  - reflexivity.
Qed.

Lemma waited_paced (name h : string) (c d : Z) (evs : list Event) :
  Forall (paced_event name h c d) evs ->
  waited evs = d * Z.of_nat (sleeps evs).
Proof.
  unfold sleeps. induction 1 as [|ev l Hev _ IH]; [cbn; lia|].
  destruct ev; cbn [waited filter is_sleep List.length]; try exact IH.
  cbn in Hev. subst ms. rewrite IH, Nat2Z.inj_succ. lia.
Qed.

(** X6. The delay between polls is fixed. Every event of waitForTransaction is
    a poll of the given hash with the given confirmations and a timeout of
    60000 ms, a wait of exactly [delay] ms, or a logger line of the
    service; there is one wait between two polls and none after the last,
    so the time spent waiting is [delay] times the number of polls less
    one. *)
Theorem waitForTransaction_fixed_delay
        (World : Type) (gw : Gateway World) (name h : string) (c : Z)
        (retries : nat) (d : Z) (w : World) :
  Forall (paced_event name h c d)
         (events (waitForTransaction gw name h c retries d w)) /\
  sleeps (events (waitForTransaction gw name h c retries d w))
  = pred (polls (events (waitForTransaction gw name h c retries d w))) /\
  waited (events (waitForTransaction gw name h c retries d w))
  = d * Z.of_nat (pred (polls (events (waitForTransaction gw name h c retries d w)))).
Proof.
  pose proof (paced_waitForTransaction gw name h c retries d w) as F.
  destruct (waitForTransaction_counts gw name h c retries d w) as [_ Hs].
  split; [exact F|]. split; [exact Hs|].
  rewrite (waited_paced name h c d _ F), Hs. reflexivity.
Qed.

(** A run with two retried errors waits twice 5000 ms. *)
Example waited_after_two_retries :
  waited (events (Sim.waitForTransaction true Sim.hashL 1 5 5000
                    (Sim.with_polls Sim.fresh
                       [Throw Sim.err_unknown_block; Throw Sim.err_lookup])))
  = 10000.
Proof. vm_compute. reflexivity. Qed.

(** ** approveToken: what it calls and what it answers *)

(** X7. approveToken touches only its own token and spender: every event is a
    read of the wallet's allowance for them, an approval of the maximum
    amount for them, a poll with one confirmation and a timeout of 60000
    ms, a wait of 5000 ms or a logger line of the service; it never
    estimates gas and never sends a transaction. It reads the allowance
    exactly once, calls approve at most once, polls at most five times and
    waits at most four times. *)
Theorem approveToken_calls
        (World : Type) (gw : Gateway World) (wallet : address) (name : string)
        (t s : address) (amount : Z) (w : World) :
  Forall (approve_event wallet name t s)
         (events (approveToken gw wallet name t s amount w)) /\
  count_events is_read (events (approveToken gw wallet name t s amount w)) = 1%nat /\
  (count_events is_approve (events (approveToken gw wallet name t s amount w)) <= 1)%nat /\
  (polls (events (approveToken gw wallet name t s amount w)) <= 5)%nat /\
  (sleeps (events (approveToken gw wallet name t s amount w)) <= 4)%nat.
Proof.
  split; [|split; [|split; [|split]]].
  - apply always_approveToken; intros; cbn; auto.
  - rewrite approveToken_run.
    destruct (gw_allowance gw t wallet s w) as [[v|e] w1]; [|reflexivity].
    destruct (v >=? amount); [reflexivity|].
    destruct (gw_approve gw t s Ethers.MaxUint256 w1) as [[tx|e] w2];
      [|reflexivity].
    cbn [events].
    change (count_events is_read
              (Allowance t wallet s (Ok v) :: ?l)) with
      (S (count_events is_read l)).
    unfold count_events. cbn [filter is_read].
    rewrite filter_app, length_app. cbn [filter is_read List.length].
    fold (count_events is_read (events (waitForTransaction gw name tx 1 5 5000 w2))).
    rewrite (count_zero is_read); [reflexivity|].
    eapply Forall_impl; [|apply (paced_waitForTransaction gw name tx 1 5 5000)].
    intros ev. destruct ev; cbn; tauto.
  - apply (at_most_approveToken is_approve (fun _ => eq_refl) gw wallet name
             0 1 0); try discriminate; [intros; lia|].
    intros tx w'. rewrite (count_zero is_approve); [lia|].
    eapply Forall_impl; [|apply (paced_waitForTransaction gw name tx 1 5 5000)].
    intros ev. destruct ev; cbn; tauto.
  - apply (at_most_approveToken is_poll (fun _ => eq_refl) gw wallet name
             0 0 5); try discriminate.
    intros tx w'. apply waitForTransaction_counts.
  - apply (at_most_approveToken is_sleep (fun _ => eq_refl) gw wallet name
             0 0 4); try discriminate.
    intros tx w'.
    destruct (waitForTransaction_counts gw name tx 1 5 5000 w') as [Hp Hs].
    unfold count_events. fold (sleeps (events (waitForTransaction gw name tx 1 5 5000 w'))).
    lia.
Qed.

(** X8. approveToken answers false exactly when the allowance read throws, or
    the allowance is short and the approve call throws; in every other case
    it answers true. *)
Theorem approveToken_false_iff
        (World : Type) (gw : Gateway World) (wallet : address) (name : string)
        (t s : address) (amount : Z) (w : World) :
  (outcome (approveToken gw wallet name t s amount w) = Ok false <->
   (exists e, fst (gw_allowance gw t wallet s w) = Throw e) \/
   (exists v e,
       fst (gw_allowance gw t wallet s w) = Ok v /\ v < amount /\
       fst (gw_approve gw t s Ethers.MaxUint256
              (snd (gw_allowance gw t wallet s w))) = Throw e)) /\
  (outcome (approveToken gw wallet name t s amount w) = Ok false \/
   outcome (approveToken gw wallet name t s amount w) = Ok true).
Proof.
  rewrite approveToken_run.
  destruct (gw_allowance gw t wallet s w) as [[v|e] w1]; cbn [fst snd].
  - destruct (v >=? amount) eqn:E.
    + apply Z.geb_le in E. cbn [outcome]. split; [|auto]. split.
      * discriminate.
      * intros [[e H]|(v' & e & H & Hlt & _)]; [discriminate|].
        inversion H; subst. lia.
    + assert (Hlt : v < amount).
      { destruct (Z.lt_ge_cases v amount) as [Hlt|Hge]; [exact Hlt|].
        apply Z.geb_le in Hge. congruence. }
      destruct (gw_approve gw t s Ethers.MaxUint256 w1) as [[tx|e] w2];
        cbn [fst outcome]; (split; [|auto]); split.
      * discriminate.
      * intros [[e H]|(v' & e & _ & _ & H)]; discriminate.
      * intros _. right. exists v, e. auto.
      * reflexivity.
  - cbn [outcome]. split; [|auto]. split; [|reflexivity].
    intros _. left. exists e. reflexivity.
Qed.

(** ** addLiquidity: the approval gate *)

Section ApprovalGate.

Context {World : Type}.
Variable gw : Gateway World.
Variable c : Contracts.
Variable wallet : address.
Variable name : string.
Variable enc : RouterCall -> Outcome string.

(** With a plan, addLiquidity runs both approvals, one after the other,
    and then goes by their answers. *)
Lemma addLiquidity_after_approvals
      (tokenA tokenB amountA amountB : string) (p : Plan) (w : World) :
  prepare c tokenA tokenB amountA amountB = Ready p ->
  exists approvedA approvedB,
    let rA := approveToken gw wallet name (tokenAAddress p) (ROUTER c)
                (amount0Desired p) w in
    let rB := approveToken gw wallet name (tokenBAddress p) (ROUTER c)
                (amount1Desired p) (world rA) in
    outcome rA = Ok approvedA /\ outcome rB = Ok approvedB /\
    addLiquidity gw c wallet name enc tokenA tokenB amountA amountB w
    = try_catch
        (fun w' =>
           let rest :=
             (if negb approvedA || negb approvedB
              then bind (logger name
                           ("Token approval failed for " ++ tokenA ++ "-" ++ tokenB))
                        (fun _ => ret None)
              else submitLiquidity gw c wallet name enc p
                     tokenA tokenB amountA amountB) (world rB) in
           mkRun (outcome rest) (world rest)
             (events rA ++ events rB ++ events rest))
        (fun error =>
           bind (logger name ("Error adding liquidity: " ++ message error))
                (fun _ => ret None))
        w.
Proof.
  intros Hp.
  destruct (approveToken_returns gw wallet name (tokenAAddress p) (ROUTER c)
              (amount0Desired p) w) as [approvedA HA].
  destruct (approveToken_returns gw wallet name (tokenBAddress p) (ROUTER c)
              (amount1Desired p)
              (world (approveToken gw wallet name (tokenAAddress p) (ROUTER c)
                        (amount0Desired p) w))) as [approvedB HB].
  exists approvedA, approvedB. cbv zeta.
  split; [exact HA|]. split; [exact HB|].
  unfold addLiquidity. rewrite Hp. unfold try_catch.
  pose proof (run_eta (approveToken gw wallet name (tokenAAddress p) (ROUTER c)
                         (amount0Desired p) w)) as EA.
  rewrite HA in EA. rewrite (bind_ok_run _ EA).
  pose proof (run_eta (approveToken gw wallet name (tokenBAddress p) (ROUTER c)
                         (amount1Desired p)
                         (world (approveToken gw wallet name (tokenAAddress p)
                                   (ROUTER c) (amount0Desired p) w)))) as EB.
  rewrite HB in EB. rewrite (bind_ok_run _ EB).
  reflexivity.
Qed.

End ApprovalGate.

(** X4. When tokenA's address is not above tokenB's, lines 89-90 call
    approveToken first for tokenA's address with the amount parsed from
    amountA, then for tokenB's address with the amount parsed from amountB,
    both for the router: the events of addLiquidity begin with the events
    of these two calls, the second made in the world the first one left. *)
Theorem approval_amounts_straight
        (World : Type) (gw : Gateway World) (c : Contracts) (wallet : address)
        (name : string) (enc : RouterCall -> Outcome string)
        (tokenA tokenB amountA amountB : string) (p : Plan) (w : World) :
  prepare c tokenA tokenB amountA amountB = Ready p ->
  Js.lt (tokenBAddress p) (tokenAAddress p) = false ->
  exists a b va vb,
    resolve c tokenA = Some a /\ resolve c tokenB = Some b /\
    Ethers.parseEther amountA = Some va /\
    Ethers.parseEther amountB = Some vb /\
    let rA := approveToken gw wallet name a (ROUTER c) va w in
    let rB := approveToken gw wallet name b (ROUTER c) vb (world rA) in
    exists rest,
      events (addLiquidity gw c wallet name enc tokenA tokenB amountA amountB w)
      = (events rA ++ events rB ++ rest)%list.
Proof.
  intros Hp Hlt.
  destruct (plan_amounts_straight c tokenA tokenB amountA amountB p Hp Hlt)
    as (_ & _ & Pa & Pb).
  destruct (prepare_ready_inv _ _ _ _ _ _ Hp) as (_ & _ & Ra & Rb & _).
  exists (tokenAAddress p), (tokenBAddress p), (amount0Desired p),
    (amount1Desired p).
  split; [exact Ra|]. split; [exact Rb|]. split; [exact Pa|].
  split; [exact Pb|]. cbv zeta.
  destruct (addLiquidity_after_approvals gw c wallet name enc
              tokenA tokenB amountA amountB p w Hp)
    as (approvedA & approvedB & _ & _ & E).
  cbv zeta in E. rewrite E, events_try_catch. cbn [events outcome world].
  rewrite <- !app_assoc. eexists. reflexivity.
Qed.

(** 1.5 PHRS with 3.0 USDT: the wrapped native token has the lower
    address, and the run begins with its approval for 1.5 and then the
    approval of USDT for 3.0. *)
Lemma approval_amounts_straight_witness :
  exists rest,
    events (Sim.addLiquidity true "PHRS" "USDT" "1.5" "3.0" Sim.fresh)
    = (events (Sim.approveToken true (WPHRS pharos) (ROUTER pharos)
                 (15 * 10 ^ 17) Sim.fresh)
       ++ events (Sim.approveToken true (USDT pharos) (ROUTER pharos)
                    (3 * 10 ^ 18)
                    (world (Sim.approveToken true (WPHRS pharos) (ROUTER pharos)
                              (15 * 10 ^ 17) Sim.fresh)))
       ++ rest)%list.
Proof.
  destruct (approval_amounts_straight Sim.World (Sim.gateway true) pharos
              Sim.wallet "Wallet-1" Sim.encode "PHRS" "USDT" "1.5" "3.0"
              (mkPlan (WPHRS pharos) (USDT pharos) (WPHRS pharos) (USDT pharos)
                 (15 * 10 ^ 17) (3 * 10 ^ 18))
              Sim.fresh eq_refl eq_refl)
    as (a & b & va & vb & Ra & Rb & Pa & Pb & rest & E).
  vm_compute in Ra, Rb, Pa, Pb.
  inversion Ra; inversion Rb; inversion Pa; inversion Pb; subst a b va vb.
  exists rest. exact E.
Defined.

(** X9. When either approval answers false, addLiquidity stops at line 91:
    both approvals have been run, the second one even after the first
    failed, one line is logged, nothing is estimated or sent, and the result
    is null. *)
Theorem failed_approval_stops_the_flow
        (World : Type) (gw : Gateway World) (c : Contracts) (wallet : address)
        (name : string) (enc : RouterCall -> Outcome string)
        (tokenA tokenB amountA amountB : string) (p : Plan) (w : World) :
  prepare c tokenA tokenB amountA amountB = Ready p ->
  let rA := approveToken gw wallet name (tokenAAddress p) (ROUTER c)
              (amount0Desired p) w in
  let rB := approveToken gw wallet name (tokenBAddress p) (ROUTER c)
              (amount1Desired p) (world rA) in
  outcome rA = Ok false \/ outcome rB = Ok false ->
  addLiquidity gw c wallet name enc tokenA tokenB amountA amountB w
  = mkRun (Ok None) (world rB)
      (events rA ++ events rB
       ++ [Log ("System | " ++ name ++ " | "
                ++ ("Token approval failed for " ++ tokenA ++ "-" ++ tokenB))]).
Proof.
  intros Hp rA rB Hfail.
  destruct (addLiquidity_after_approvals gw c wallet name enc
              tokenA tokenB amountA amountB p w Hp)
    as (approvedA & approvedB & HA & HB & Hrun).
  fold rA in HA, HB, Hrun. fold rB in HB, Hrun.
  rewrite Hrun.
  assert (G : negb approvedA || negb approvedB = true).
  { destruct Hfail as [H|H].
    - rewrite H in HA. inversion HA; subst. reflexivity.
    - rewrite H in HB. inversion HB; subst. apply orb_true_r. }
  rewrite G. reflexivity.
Qed.

Lemma failed_approval_stops_the_flow_witness :
  let w := Sim.mkWorld (fun _ _ => 0) (Throw Sim.err_timeout) []
             (Ok 210000) (Ok Sim.hashL) 1700000000000 in
  let rA := approveToken (Sim.gateway true) Sim.wallet "Wallet-1"
              (WPHRS pharos) (ROUTER pharos) (15 * 10 ^ 17) w in
  let rB := approveToken (Sim.gateway true) Sim.wallet "Wallet-1"
              (USDT pharos) (ROUTER pharos) (3 * 10 ^ 18) (world rA) in
  Sim.addLiquidity true "PHRS" "USDT" "1.5" "3.0" w
  = mkRun (Ok None) (world rB)
      (events rA ++ events rB
       ++ [Log ("System | Wallet-1 | "
                ++ ("Token approval failed for " ++ "PHRS" ++ "-" ++ "USDT"))]).
Proof.
  apply (failed_approval_stops_the_flow Sim.World (Sim.gateway true) pharos
           Sim.wallet "Wallet-1" Sim.encode "PHRS" "USDT" "1.5" "3.0"
           (mkPlan (WPHRS pharos) (USDT pharos) (WPHRS pharos) (USDT pharos)
              (15 * 10 ^ 17) (3 * 10 ^ 18))).
  - reflexivity.
  - left. vm_compute. reflexivity.
Defined.

(** ** addLiquidity: what it may call *)

Lemma prepare_tokens_in_table
      (c : Contracts) (tokenA tokenB amountA amountB : string) (p : Plan) :
  prepare c tokenA tokenB amountA amountB = Ready p ->
  In (tokenAAddress p) [WPHRS c; USDT c; USDC c] /\
  In (tokenBAddress p) [WPHRS c; USDT c; USDC c].
Proof.
  intros H.
  destruct (prepare_ready_inv _ _ _ _ _ _ H) as (_ & _ & Ra & Rb & _).
  split; eapply resolve_in_table; eassumption.
Qed.

Lemma service_events_addLiquidity
      {World : Type} (gw : Gateway World) (c : Contracts) (wallet : address)
      (name : string) (enc : RouterCall -> Outcome string)
      (tokenA tokenB amountA amountB : string) :
  always (service_event c wallet name)
    (addLiquidity gw c wallet name enc tokenA tokenB amountA amountB).
Proof.
  assert (L : forall line, prefix (log_head name) line = true ->
                           service_event c wallet name (Log line))
    by (intros line H; exact H).
  unfold addLiquidity. apply always_try_catch.
  - destruct (prepare c tokenA tokenB amountA amountB) as [| |p] eqn:Hp.
    + now apply always_log_return.
    + apply always_throw.
    + destruct (prepare_tokens_in_table _ _ _ _ _ _ Hp) as [Ta Tb].
      apply always_bind.
      { apply always_approveToken; intros; cbn [service_event]; auto. }
      intros approvedA. apply always_bind.
      { apply always_approveToken; intros; cbn [service_event]; auto. }
      intros approvedB. destruct (negb approvedA || negb approvedB).
      * now apply always_log_return.
      * unfold submitLiquidity.
        apply always_bind; [intros w; constructor|]. intros now.
        do 3 (apply always_bind; [apply always_lift_outcome|]; intros ?).
        apply always_bind.
        { apply always_try_catch.
          - apply always_call. intros r. cbn. auto.
          - intros e. now apply always_log_return. }
        intros estimatedGas.
        apply always_bind; [now apply always_logger|]. intros _.
        apply always_bind; [apply always_call; intros r; reflexivity|].
        intros tx.
        apply always_bind; [now apply always_logger|]. intros _.
        apply always_bind.
        { apply always_waitForTransaction; intros; cbn [service_event]; auto. }
        intros [rc|]; now apply always_log_return.
  - intros e. now apply always_log_return.
Qed.

(** X10. Whatever the arguments and the chain, addLiquidity reads and approves
    allowances only of the three tokens of the table, only for the wallet
    as owner and the router as spender, and approves nothing but the
    maximum amount; it polls with one confirmation and a timeout of 60000
    ms, waits 5000 ms at a time, estimates and sends only requests
    addressed to the router, and starts every logger line with the head of
    the service. *)
Theorem addLiquidity_calls_only_its_contracts
        (World : Type) (gw : Gateway World) (c : Contracts) (wallet : address)
        (name : string) (enc : RouterCall -> Outcome string)
        (tokenA tokenB amountA amountB : string) (w : World) :
  Forall (service_event c wallet name)
         (events (addLiquidity gw c wallet name enc
                    tokenA tokenB amountA amountB w)).
Proof.
  apply service_events_addLiquidity.
Qed.

(** X11. With a plan, every request addLiquidity estimates or sends is addressed
    to the router and carries the native value of the plan. *)
Theorem requests_carry_native_value
        (World : Type) (gw : Gateway World) (c : Contracts) (wallet : address)
        (name : string) (enc : RouterCall -> Outcome string)
        (tokenA tokenB amountA amountB : string) (p : Plan) (w : World) :
  prepare c tokenA tokenB amountA amountB = Ready p ->
  Forall (request_event c p)
         (events (addLiquidity gw c wallet name enc
                    tokenA tokenB amountA amountB w)).
Proof.
  intros Hp. revert w.
  change (always (request_event c p)
            (addLiquidity gw c wallet name enc tokenA tokenB amountA amountB)).
  assert (L : forall line, prefix (log_head name) line = true ->
                           request_event c p (Log line))
    by (intros line H; exact I).
  unfold addLiquidity. rewrite Hp. apply always_try_catch.
  - apply always_bind.
    { apply always_approveToken; intros; exact I. }
    intros approvedA. apply always_bind.
    { apply always_approveToken; intros; exact I. }
    intros approvedB. destruct (negb approvedA || negb approvedB).
    + now apply always_log_return.
    + unfold submitLiquidity.
      apply always_bind; [intros w; constructor|]. intros now.
      do 3 (apply always_bind; [apply always_lift_outcome|]; intros ?).
      apply always_bind.
      { apply always_try_catch.
        - apply always_call. intros r. cbn. auto.
        - intros e. now apply always_log_return. }
      intros estimatedGas.
      apply always_bind; [now apply always_logger|]. intros _.
      apply always_bind; [apply always_call; intros r; cbn; auto|].
      intros tx.
      apply always_bind; [now apply always_logger|]. intros _.
      apply always_bind.
      { apply always_waitForTransaction; intros; exact I. }
      intros [rc|]; now apply always_log_return.
  - intros e. now apply always_log_return.
Qed.

Lemma requests_carry_native_value_witness :
  Forall (request_event pharos
            (mkPlan (USDT pharos) (WPHRS pharos) (WPHRS pharos) (USDT pharos)
               (15 * 10 ^ 17) (3 * 10 ^ 18)))
         (events (Sim.addLiquidity true "USDT" "PHRS" "3.0" "1.5" Sim.fresh)).
Proof.
  apply (requests_carry_native_value Sim.World (Sim.gateway true) pharos
           Sim.wallet "Wallet-1" Sim.encode "USDT" "PHRS" "3.0" "1.5").
  reflexivity.
Defined.

(** ** addLiquidity: how much it may call *)

Lemma waited_service (c : Contracts) (wallet : address) (name : string)
      (evs : list Event) :
  Forall (service_event c wallet name) evs ->
  waited evs = 5000 * Z.of_nat (sleeps evs).
Proof.
  unfold sleeps. induction 1 as [|ev l Hev _ IH]; [cbn; lia|].
  destruct ev; cbn [waited filter is_sleep List.length]; try exact IH.
  cbn in Hev. subst ms. rewrite IH, Nat2Z.inj_succ. lia.
Qed.

(** X12. One call of addLiquidity is bounded: at most two allowance reads, two
    approve calls, one gas estimate and one send; at most fifteen receipt
    polls in its three confirmation loops, at most twelve waits, and so at
    most 60000 ms spent in timer waits. *)
Theorem addLiquidity_is_bounded
        (World : Type) (gw : Gateway World) (c : Contracts) (wallet : address)
        (name : string) (enc : RouterCall -> Outcome string)
        (tokenA tokenB amountA amountB : string) (w : World) :
  (count_events is_read
     (events (addLiquidity gw c wallet name enc tokenA tokenB amountA amountB w))
   <= 2)%nat /\
  (count_events is_approve
     (events (addLiquidity gw c wallet name enc tokenA tokenB amountA amountB w))
   <= 2)%nat /\
  (count_events is_estimate
     (events (addLiquidity gw c wallet name enc tokenA tokenB amountA amountB w))
   <= 1)%nat /\
  (count_events is_send
     (events (addLiquidity gw c wallet name enc tokenA tokenB amountA amountB w))
   <= 1)%nat /\
  (polls
     (events (addLiquidity gw c wallet name enc tokenA tokenB amountA amountB w))
   <= 15)%nat /\
  (sleeps
     (events (addLiquidity gw c wallet name enc tokenA tokenB amountA amountB w))
   <= 12)%nat /\
  waited (events (addLiquidity gw c wallet name enc tokenA tokenB amountA amountB w))
  <= 60000.
Proof.
  assert (Z0 : forall f h,
             (forall ev, paced_event name h 1 5000 ev -> f ev = false) ->
             forall w', (count_events f
                           (events (waitForTransaction gw name h 1 5 5000 w'))
                         <= 0)%nat).
  { intros f h Hf w'. rewrite (count_zero f); [lia|].
    eapply Forall_impl; [apply Hf|].
    apply (paced_waitForTransaction gw name h 1 5 5000). }
  assert (Hsl : (sleeps (events (addLiquidity gw c wallet name enc
                                   tokenA tokenB amountA amountB w)) <= 12)%nat).
  { apply (at_most_addLiquidity is_sleep (fun _ => eq_refl) gw c wallet name enc
             0 0 0 0 4); try discriminate.
    intros tx w'.
    destruct (waitForTransaction_counts gw name tx 1 5 5000 w') as [Hp Hs].
    unfold count_events.
    fold (sleeps (events (waitForTransaction gw name tx 1 5 5000 w'))). lia. }
  split; [|split; [|split; [|split; [|split; [|split]]]]].
  - apply (at_most_addLiquidity is_read (fun _ => eq_refl) gw c wallet name enc
             1 0 0 0 0); try discriminate; try (intros; lia).
    intros tx w'. apply Z0. intros ev. destruct ev; cbn; tauto.
  - apply (at_most_addLiquidity is_approve (fun _ => eq_refl) gw c wallet name enc
             0 1 0 0 0); try discriminate; try (intros; lia).
    intros tx w'. apply Z0. intros ev. destruct ev; cbn; tauto.
  - apply (at_most_addLiquidity is_estimate (fun _ => eq_refl) gw c wallet name enc
             0 0 1 0 0); try discriminate; try (intros; lia).
    intros tx w'. apply Z0. intros ev. destruct ev; cbn; tauto.
  - apply (at_most_addLiquidity is_send (fun _ => eq_refl) gw c wallet name enc
             0 0 0 1 0); try discriminate; try (intros; lia).
    intros tx w'. apply Z0. intros ev. destruct ev; cbn; tauto.
  - apply (at_most_addLiquidity is_poll (fun _ => eq_refl) gw c wallet name enc
             0 0 0 0 5); try discriminate.
    intros tx w'. apply waitForTransaction_counts.
  - exact Hsl.
  - rewrite (waited_service c wallet name).
    + lia.
    + apply service_events_addLiquidity.
Qed.

(** ** addLiquidity on a chain that answers *)

Section Reports.

Context {World : Type}.
Variable gw : Gateway World.
Variable c : Contracts.
Variable wallet : address.
Variable name : string.
Variable enc : RouterCall -> Outcome string.

Local Opaque append waitForTransaction approveToken Z.mul Z.quot.

(** Lines 96-142 report the hash once the encoder accepts the calls, the
    send answers and the confirmation loop returns a receipt. *)
Lemma submitLiquidity_reports
      (p : Plan) (tokenA tokenB amountA amountB : string) (w : World)
      (txp : TxRequest) (h : string) (rc : Receipt) :
  liquidity_request gw c wallet enc p w = Ok txp ->
  let est := gw_estimateGas gw txp w in
  let sent := gw_sendTransaction gw
                (set_gasLimit txp (chosen_gas (fst est) * 12 ÷ 10)) (snd est) in
  fst sent = Ok h ->
  outcome (waitForTransaction gw name h 1 5 5000 (snd sent)) = Ok (Some rc) ->
  outcome (submitLiquidity gw c wallet name enc p tokenA tokenB amountA amountB w)
  = Ok (Some h) /\
  world (submitLiquidity gw c wallet name enc p tokenA tokenB amountA amountB w)
  = world (waitForTransaction gw name h 1 5 5000 (snd sent)).
Proof.
  intros Hreq est sent Hs Hc. unfold liquidity_request in Hreq.
  destruct (enc (CallMint (mintParams wallet p (gw_now gw w)))) as [mintData|e] eqn:E1;
    [|discriminate].
  destruct (enc CallRefundETH) as [refundData|e] eqn:E2; [|discriminate].
  destruct (enc (CallMulticall [mintData; refundData])) as [data|e] eqn:E3;
    [|discriminate].
  inversion Hreq; subst txp; clear Hreq.
  unfold submitLiquidity.
  rewrite (bind_ok_run (w1 := w) (a := gw_now gw w) (ev := []) _ eq_refl).
  cbn [outcome world events app].
  rewrite E1.
  rewrite (bind_ok_run (w1 := w) (a := mintData) (ev := []) _ eq_refl).
  cbn [outcome world events app].
  rewrite E2.
  rewrite (bind_ok_run (w1 := w) (a := refundData) (ev := []) _ eq_refl).
  cbn [outcome world events app].
  rewrite E3.
  rewrite (bind_ok_run (w1 := w) (a := data) (ev := []) _ eq_refl).
  cbn [outcome world events app].
  set (txp := mkTx (ROUTER c) data (nativeValue c p) 500000) in *.
  assert (Eest : exists ev,
             try_catch (call (gw_estimateGas gw txp) (EstimateGas txp))
               (fun e : JsError =>
                  bind (logger name ("Gas estimation failed: " ++ message e))
                       (fun _ => ret 500000)) w
             = mkRun (Ok (chosen_gas (fst est))) (snd est) ev).
  { unfold try_catch, call, bind, logger, emit, ret. subst est.
    destruct (gw_estimateGas gw txp w) as [[g|e] w1];
      cbn [outcome world events fst snd chosen_gas]; eexists; reflexivity. }
  destruct Eest as [ev Eest]. rewrite (bind_ok_run _ Eest).
  cbn [outcome world events].
  rewrite (bind_ok_run (w1 := snd est) (a := tt) _ eq_refl).
  cbn [outcome world events].
  destruct sent as [r w4] eqn:Es. cbn [fst snd] in Hs, Hc. subst r.
  subst sent.
  rewrite (bind_ok_run _ (call_run _ Es)).
  cbn [outcome world events].
  rewrite (bind_ok_run (w1 := w4) (a := tt) _ eq_refl).
  cbn [outcome world events].
  pose proof (run_eta (waitForTransaction gw name h 1 5 5000 w4)) as Ew.
  rewrite Hc in Ew. rewrite (bind_ok_run _ Ew).
  cbn [outcome world events].
  split; reflexivity.
Qed.

Lemma addLiquidity_reports
      (tokenA tokenB amountA amountB : string) (p : Plan) (w : World)
      (txp : TxRequest) (h : string) (rc : Receipt) :
  prepare c tokenA tokenB amountA amountB = Ready p ->
  let rA := approveToken gw wallet name (tokenAAddress p) (ROUTER c)
              (amount0Desired p) w in
  let rB := approveToken gw wallet name (tokenBAddress p) (ROUTER c)
              (amount1Desired p) (world rA) in
  outcome rA = Ok true -> outcome rB = Ok true ->
  liquidity_request gw c wallet enc p (world rB) = Ok txp ->
  let est := gw_estimateGas gw txp (world rB) in
  let sent := gw_sendTransaction gw
                (set_gasLimit txp (chosen_gas (fst est) * 12 ÷ 10)) (snd est) in
  fst sent = Ok h ->
  outcome (waitForTransaction gw name h 1 5 5000 (snd sent)) = Ok (Some rc) ->
  outcome (addLiquidity gw c wallet name enc tokenA tokenB amountA amountB w)
  = Ok (Some h) /\
  world (addLiquidity gw c wallet name enc tokenA tokenB amountA amountB w)
  = world (waitForTransaction gw name h 1 5 5000 (snd sent)).
Proof.
  intros Hp rA rB HA HB Hreq est sent Hs Hc.
  destruct (addLiquidity_after_approvals gw c wallet name enc
              tokenA tokenB amountA amountB p w Hp)
    as (approvedA & approvedB & HA' & HB' & E).
  cbv zeta in HA', HB', E. fold rA in HA', HB', E. fold rB in HB', E.
  rewrite HA in HA'. rewrite HB in HB'.
  inversion HA'; inversion HB'; subst approvedA approvedB.
  cbn [negb orb] in E.
  destruct (submitLiquidity_reports p tokenA tokenB amountA amountB (world rB)
              txp h rc Hreq Hs Hc) as [Ho Hw].
  rewrite E. unfold try_catch. cbn [outcome world events].
  rewrite Ho. cbn [outcome world]. split; [reflexivity|exact Hw].
Qed.

End Reports.

(** X13. addLiquidity reports the hash when every step of this run goes
    through. If both symbols resolve and both amounts parse, both calls of
    approveToken return true, the encoder accepts the three calls of the
    plan in the world the approvals left, the wallet answers the send of
    the padded request with the hash [h] in the world gas estimation left,
    and the confirmation loop for [h] returns a receipt, then the result is
    [h] and the run ends where the confirmation loop ended, whether gas
    estimation answered or threw. *)
Theorem answered_calls_yield_the_hash
        (World : Type) (gw : Gateway World) (c : Contracts) (wallet : address)
        (name : string) (enc : RouterCall -> Outcome string)
        (tokenA tokenB amountA amountB : string) (p : Plan) (w : World)
        (txp : TxRequest) (h : string) (rc : Receipt) :
  prepare c tokenA tokenB amountA amountB = Ready p ->
  let rA := approveToken gw wallet name (tokenAAddress p) (ROUTER c)
              (amount0Desired p) w in
  let rB := approveToken gw wallet name (tokenBAddress p) (ROUTER c)
              (amount1Desired p) (world rA) in
  outcome rA = Ok true -> outcome rB = Ok true ->
  liquidity_request gw c wallet enc p (world rB) = Ok txp ->
  let est := gw_estimateGas gw txp (world rB) in
  let sent := gw_sendTransaction gw
                (set_gasLimit txp (chosen_gas (fst est) * 12 ÷ 10)) (snd est) in
  fst sent = Ok h ->
  outcome (waitForTransaction gw name h 1 5 5000 (snd sent)) = Ok (Some rc) ->
  outcome (addLiquidity gw c wallet name enc tokenA tokenB amountA amountB w)
  = Ok (Some h) /\
  world (addLiquidity gw c wallet name enc tokenA tokenB amountA amountB w)
  = world (waitForTransaction gw name h 1 5 5000 (snd sent)).
Proof.
  intros Hp rA rB HA HB Hreq est sent Hs Hc.
  apply (addLiquidity_reports gw c wallet name enc tokenA tokenB amountA amountB
           p w txp h rc Hp HA HB Hreq Hs Hc).
Qed.

(** Gas estimation throws and the first poll of the liquidity transaction
    is a retried error: the hash is reported all the same. *)
Lemma answered_calls_yield_the_hash_witness :
  outcome (Sim.addLiquidity true "PHRS" "USDT" "1.5" "3.0"
             (Sim.with_estimate
                (Sim.with_polls Sim.fresh
                   [Ok (Some (mkReceipt Sim.hashA (Some 1)));
                    Ok (Some (mkReceipt Sim.hashA (Some 1)));
                    Throw Sim.err_unknown_block])
                (Throw Sim.err_estimate)))
  = Ok (Some Sim.hashL).
Proof.
  apply (answered_calls_yield_the_hash Sim.World (Sim.gateway true) pharos
           Sim.wallet "Wallet-1" Sim.encode "PHRS" "USDT" "1.5" "3.0"
           (mkPlan (WPHRS pharos) (USDT pharos) (WPHRS pharos) (USDT pharos)
              (15 * 10 ^ 17) (3 * 10 ^ 18))
           (Sim.with_estimate
              (Sim.with_polls Sim.fresh
                 [Ok (Some (mkReceipt Sim.hashA (Some 1)));
                  Ok (Some (mkReceipt Sim.hashA (Some 1)));
                  Throw Sim.err_unknown_block])
              (Throw Sim.err_estimate))
           Sim.request Sim.hashL (mkReceipt Sim.hashL (Some 1)));
    vm_compute; reflexivity.
Defined.

(** ** The gas limit against the estimate *)

(** X14. For an estimate that is not negative, the limit that is sent is never
    below the estimate and is 1.2 times the estimate rounded down: ten
    times the limit is at most twelve times the estimate and misses it by
    less than ten. *)
Theorem padded_limit_covers_estimate
        (World : Type) (gw : Gateway World) (c : Contracts) (wallet : address)
        (name : string) (enc : RouterCall -> Outcome string)
        (tokenA tokenB amountA amountB : string) (w : World)
        (txp : TxRequest) (g : Z) :
  0 <= g ->
  In (EstimateGas txp (Ok g))
     (events (addLiquidity gw c wallet name enc tokenA tokenB amountA amountB w)) ->
  exists limit sent,
    In (Send (set_gasLimit txp limit) sent)
       (events (addLiquidity gw c wallet name enc
                  tokenA tokenB amountA amountB w)) /\
    g <= limit /\ 10 * limit <= 12 * g < 10 * limit + 10.
Proof.
  intros Hg Hin.
  destruct (buffers_addLiquidity gw c wallet name enc
              tokenA tokenB amountA amountB w txp (Ok g) Hin) as [sent Hs].
  exists (g * 12 ÷ 10), sent. split; [exact Hs|].
  rewrite Z.quot_div_nonneg by lia.
  pose proof (Z.div_mod (g * 12) 10 ltac:(lia)) as Hd.
  pose proof (Z.mod_pos_bound (g * 12) 10 ltac:(lia)) as Hm.
  lia.
Qed.

Lemma padded_limit_covers_estimate_witness :
  exists limit sent,
    In (Send (set_gasLimit Sim.request limit) sent)
       (events (Sim.addLiquidity true "PHRS" "USDT" "1.5" "3.0" Sim.fresh)) /\
    210000 <= limit /\ 10 * limit <= 12 * 210000 < 10 * limit + 10.
Proof.
  apply (padded_limit_covers_estimate Sim.World (Sim.gateway true) pharos
           Sim.wallet "Wallet-1" Sim.encode "PHRS" "USDT" "1.5" "3.0"
           Sim.fresh Sim.request 210000).
  - vm_compute. discriminate.
  - vm_compute. repeat first [left; reflexivity | right].
Defined.

(** ** Every outcome is logged *)

Section Logged.

Context {World : Type}.

Lemma closes_bind {A B} (m : M World A) (k : A -> M World B) :
  (forall a, closes_with_log (k a)) -> closes_with_log (bind m k).
Proof.
  intros Hk w b. rewrite outcome_bind, events_bind.
  destruct (outcome (m w)) as [a|e]; [|discriminate].
  intros Ho. destruct (Hk a _ _ Ho) as (before & line & E).
  exists (events (m w) ++ before)%list, line.
  rewrite E. now rewrite app_assoc.
Qed.

Lemma closes_try_catch {A} (m : M World A) (h : JsError -> M World A) :
  closes_with_log m -> (forall e, closes_with_log (h e)) ->
  closes_with_log (try_catch m h).
Proof.
  intros Hm Hh w a. rewrite outcome_try_catch, events_try_catch.
  destruct (outcome (m w)) as [a'|e] eqn:E.
  - intros _. rewrite app_nil_r. apply (Hm w a' E).
  - intros Ho. destruct (Hh e _ _ Ho) as (before & line & E').
    exists (events (m w) ++ before)%list, line.
    rewrite E'. now rewrite app_assoc.
Qed.

Lemma closes_log_return {A} (name text : string) (a : A) :
  closes_with_log (bind (logger (World := World) name text) (fun _ => ret a)).
Proof.
  intros w b _. exists [], ("System | " ++ name ++ " | " ++ text). reflexivity.
Qed.

Lemma closes_throw {A} (e : JsError) :
  closes_with_log (throw (World := World) (A := A) e).
Proof. intros w a. discriminate. Qed.

Lemma closes_addLiquidity (gw : Gateway World) (c : Contracts)
      (wallet : address) (name : string) (enc : RouterCall -> Outcome string)
      (tokenA tokenB amountA amountB : string) :
  closes_with_log
    (addLiquidity gw c wallet name enc tokenA tokenB amountA amountB).
Proof.
  unfold addLiquidity. apply closes_try_catch.
  - destruct (prepare c tokenA tokenB amountA amountB) as [| |p].
    + apply closes_log_return.
    + apply closes_throw.
    + apply closes_bind. intros approvedA.
      apply closes_bind. intros approvedB.
      destruct (negb approvedA || negb approvedB).
      * apply closes_log_return.
      * unfold submitLiquidity.
        do 9 (apply closes_bind; intros ?).
        match goal with
        | |- closes_with_log (match ?r with _ => _ end) => destruct r
        end; apply closes_log_return.
  - intros e. apply closes_log_return.
Qed.

End Logged.

(** X15. Whatever happens, the last thing addLiquidity does is log: every run
    ends with a logger line that starts with the head of the service. *)
Theorem addLiquidity_ends_with_a_log_line
        (World : Type) (gw : Gateway World) (c : Contracts) (wallet : address)
        (name : string) (enc : RouterCall -> Outcome string)
        (tokenA tokenB amountA amountB : string) (w : World) :
  exists before line,
    events (addLiquidity gw c wallet name enc tokenA tokenB amountA amountB w)
    = (before ++ [Log line])%list /\
    prefix (log_head name) line = true.
Proof.
  destruct (addLiquidity_returns gw c wallet name enc
              tokenA tokenB amountA amountB w) as [res Ho].
  destruct (closes_addLiquidity gw c wallet name enc
              tokenA tokenB amountA amountB w res Ho) as (before & line & E).
  exists before, line. split; [exact E|].
  pose proof (service_events_addLiquidity gw c wallet name enc
                tokenA tokenB amountA amountB w) as F.
  rewrite E in F. apply Forall_app in F. destruct F as [_ F].
  inversion F; subst. assumption.
Qed.

(** ** Why the confirmation loop returned null *)

Lemma waitLoop_null_logged {World : Type} (gw : Gateway World)
      (name h : string) (c : Z) (retries : nat) (d : Z) :
  forall fuel attempt w,
    (attempt + S fuel = S retries)%nat ->
    outcome (waitLoop gw name (S fuel) h c retries d attempt w) = Ok None ->
    exists before line,
      events (waitLoop gw name (S fuel) h c retries d attempt w)
      = (before ++ [Log line])%list /\
      ((line = "System | " ++ name ++ " | " ++ ("Max retries reached for tx " ++ h)
        /\ polls (events (waitLoop gw name (S fuel) h c retries d attempt w))
           = S fuel)
       \/ exists msg,
            line = "System | " ++ name ++ " | " ++ ("Transaction error: " ++ msg)).
Proof.
  induction fuel as [|fuel IH]; intros attempt w Hinv.
  - rewrite waitLoop_step.
    destruct (gw_waitForTransaction gw h c 60000 w) as [r w1].
    destruct (verdict h r) as [rc| |]; [discriminate| |].
    + assert (E : (attempt =? retries)%nat = true) by (apply Nat.eqb_eq; lia).
      rewrite E. intros _.
      eexists [_; _], _. split; [reflexivity|]. left. split; reflexivity.
    + intros _. eexists [_], _. split; [reflexivity|]. right. eauto.
  - rewrite waitLoop_step.
    destruct (gw_waitForTransaction gw h c 60000 w) as [r w1].
    destruct (verdict h r) as [rc| |]; [discriminate| |].
    + assert (E : (attempt =? retries)%nat = false) by (apply Nat.eqb_neq; lia).
      rewrite E. cbn [outcome events]. intros Ho.
      destruct (IH (S attempt) (gw_sleep gw d w1)) as (before & line & Ev & Hl);
        [lia|exact Ho|].
      eexists (_ :: _ :: _ :: before), line. split.
      * rewrite Ev. reflexivity.
      * destruct Hl as [[Hl Hp]|Hl]; [left|right; exact Hl].
        split; [exact Hl|].
        unfold polls in *. cbn [filter is_poll List.length]. now rewrite Hp.
    + intros _. eexists [_], _. split; [reflexivity|]. right. eauto.
Qed.

(** X16. A null from waitForTransaction is explained by its last event: either
    the line that the retries are used up, after exactly [retries] polls,
    or a transaction-error line carrying the message of the error that was
    not retried. *)
Theorem waitForTransaction_null_is_explained
        (World : Type) (gw : Gateway World) (name h : string) (c : Z)
        (retries : nat) (d : Z) (w : World) :
  (1 <= retries)%nat ->
  outcome (waitForTransaction gw name h c retries d w) = Ok None ->
  exists before line,
    events (waitForTransaction gw name h c retries d w)
    = (before ++ [Log line])%list /\
    ((line = "System | " ++ name ++ " | " ++ ("Max retries reached for tx " ++ h)
      /\ polls (events (waitForTransaction gw name h c retries d w)) = retries)
     \/ exists msg,
          line = "System | " ++ name ++ " | " ++ ("Transaction error: " ++ msg)).
Proof.
  intros Hn. unfold waitForTransaction.
  destruct retries as [|n]; [lia|].
  apply waitLoop_null_logged. lia.
Qed.

Lemma waitForTransaction_null_is_explained_witness :
  exists before line,
    events (Sim.waitForTransaction true Sim.hashL 1 5 5000
              (Sim.with_polls Sim.fresh (repeat (Throw Sim.err_unknown_block) 5)))
    = (before ++ [Log line])%list /\
    ((line = "System | " ++ "Wallet-1" ++ " | "
             ++ ("Max retries reached for tx " ++ Sim.hashL)
      /\ polls (events (Sim.waitForTransaction true Sim.hashL 1 5 5000
                          (Sim.with_polls Sim.fresh
                             (repeat (Throw Sim.err_unknown_block) 5)))) = 5%nat)
     \/ exists msg,
          line = "System | " ++ "Wallet-1" ++ " | "
                 ++ ("Transaction error: " ++ msg)).
Proof.
  apply (waitForTransaction_null_is_explained Sim.World (Sim.gateway true)
           "Wallet-1" Sim.hashL 1 5 5000).
  - lia.
  - vm_compute. reflexivity.
Defined.
